(** * The control center of the line-following vehicle

    A shallow embedding of [ControlCenter] (control_center.cpp): the control
    state machine, the plan of drive instructions and road segments it
    consumes, and the derivation of the control command of one tick.

    Conventions.
    - A C++ [int] is a [Z]; the one arithmetic expression on ints in this
      file, [(a + b) / 2], is written with the 32-bit wrap-around of the sum
      and the truncating division of C++.
    - A [std::list] is a [list], front first.
    - A member function that mutates the object takes the object and returns
      the new one.
    - An execution with undefined behaviour ([front()] or [pop_front()] of an
      empty list, reading through an end iterator) has no result: such a
      function returns [option], and [None] stands for "undefined". *)

From Stdlib Require Import ZArith NArith String List Bool Lia.
Import ListNotations.

Local Open Scope Z_scope.

(** ** Integers of the machine *)

Definition INT_MIN : Z := - 2147483648.
Definition INT_MAX : Z := 2147483647.

Definition int_range (z : Z) : Prop := INT_MIN <= z <= INT_MAX.

Definition wrap_int (z : Z) : Z := (z + 2147483648) mod 4294967296 - 2147483648.

(** [a + b] on ints. *)
Definition int_add (a b : Z) : Z := wrap_int (a + b).

(** [a / b] on ints: C++ truncates towards zero. *)
Definition int_div (a b : Z) : Z := Z.quot a b.

(** The number of values of an [unsigned]. *)
Definition UINT_MODULUS : N := 4294967296.

(** [++c] on an [unsigned]: after the largest value comes 0. *)
Definition unsigned_succ (c : N) : N := (N.succ c mod UINT_MODULUS)%N.

(** ** Enumerations and plain data *)

Module instruction.
Inductive InstructionNumber : Type := left | forward | right | stop.

Definition eqb (a b : InstructionNumber) : bool :=
  match a, b with
  | left, left | forward, forward | right, right | stop, stop => true
  | _, _ => false
  end.
End instruction.

Module state.
Inductive ControlState : Type :=
  normal | intersection | stop_line | stopping | blocked.
End state.

Module regulation_mode.
Inductive RegulationMode : Type := auto_nominal | auto_critical.
End regulation_mode.

Record drive_instruction_t : Type := mk_drive_instruction {
  number : instruction.InstructionNumber;
  id : string
}.

Record control_t : Type := mk_control {
  angle : Z;
  lateral_position : Z;
  speed_ref : Z;
  regulation : regulation_mode.RegulationMode
}.

(** ** Undefined behaviour and exceptions *)

Definition bind {A B : Type} (m : option A) (k : A -> option B) : option B :=
  match m with
  | Some a => k a
  | None => None
  end.

Notation "x <- m ;; k" := (bind m (fun x => k))
  (at level 61, m at next level, right associativity).

(** How a call that may throw ends: it returns, or an exception leaves it
    with the object as it was when the exception was raised. *)
Inductive completion (A : Type) : Type :=
| Returned (a : A)
| Thrown (a : A).
Arguments Returned {A} a.
Arguments Thrown {A} a.

(** ** DistanceFilter *)

Module DistanceFilter.

(** Modelled from the spec: the class DistanceFilter is not among the
    sources. It keeps the last [N] observations, oldest first, seeded with
    [N] copies of the initial value. *)
Record t : Type := mk { window : list Z }.

(** Modelled from the spec: the constructor DistanceFilter(N, v0). *)
Definition make (N : nat) (v0 : Z) : t := mk (repeat v0 N).

Definition sum (l : list Z) : Z := fold_right Z.add 0 l.

(** The integer-truncated arithmetic mean. *)
Definition mean (l : list Z) : Z := Z.quot (sum l) (Z.of_nat (length l)).

(** Modelled from the spec: [filter x] inserts [x], evicts the oldest
    sample and returns the truncated mean of the window. *)
Definition filter (f : t) (x : Z) : t * Z :=
  let w := tl (window f ++ [x]) in
  (mk w, mean w).

(** [x] on [n] consecutive calls; the value of the last call. *)
Fixpoint feed (n : nat) (f : t) (x : Z) (last : Z) : t * Z :=
  match n with
  | O => (f, last)
  | S n' => let (f', y) := filter f x in feed n' f' x y
  end.

End DistanceFilter.

(** ** The collaborators of the control center *)

(** The stop-line detector: [at_line] updates the detector and answers. *)
Class StopLineDetector (D : Type) : Type := {
  make_detector : Z -> Z -> D;
  at_line : D -> Z -> D * bool
}.

(** The route planner. [solve] either updates the planner or throws
    ([None]); the two getters read the result of the last [solve]. *)
Class PathFinder (P : Type) : Type := {
  empty_path_finder : P;
  solve : P -> string -> string -> option P;
  get_drive_mission : P -> list instruction.InstructionNumber;
  get_road_segments : P -> list string
}.

(** What the class declaration and its configuration supply: the two speed
    constants and the predicates [path_blocked] (on the filtered obstacle
    distance) and [is_expected] (on the last angle and a new reading). *)
Class Settings : Type := {
  DEFAULT_SPEED : Z;
  INTERSECTION_SPEED : Z;
  path_blocked : Z -> bool;
  is_expected : Z -> Z -> bool
}.

(** ** The object *)

Section ControlCenter.

Context {D P : Type} `{StopLineDetector D} `{PathFinder P} `{Settings}.

Record ControlCenter : Type := mk_control_center {
  obstacle_distance_filter : DistanceFilter.t;
  stop_distance_filter : DistanceFilter.t;
  stop_line_detector : D;
  status_code_threshold : N;
  path_finder : P;
  drive_instructions : list drive_instruction_t;
  road_segments : list string;
  finished_id_buffer : list string;
  state : state.ControlState;
  stop_reason : state.ControlState;
  finish_when_stopped : bool;
  (* its declaration is not among the sources; it is compared with the
     unsigned threshold and is an unsigned like it, below UINT_MODULUS *)
  consecutive_0_status_codes : N;
  last_angle : Z
}.

(** Assignments to one member. *)

Definition set_obstacle_distance_filter f cc :=
  mk_control_center f (stop_distance_filter cc) (stop_line_detector cc)
    (status_code_threshold cc) (path_finder cc) (drive_instructions cc)
    (road_segments cc) (finished_id_buffer cc) (state cc) (stop_reason cc)
    (finish_when_stopped cc) (consecutive_0_status_codes cc) (last_angle cc).

Definition set_stop_distance_filter f cc :=
  mk_control_center (obstacle_distance_filter cc) f (stop_line_detector cc)
    (status_code_threshold cc) (path_finder cc) (drive_instructions cc)
    (road_segments cc) (finished_id_buffer cc) (state cc) (stop_reason cc)
    (finish_when_stopped cc) (consecutive_0_status_codes cc) (last_angle cc).

Definition set_stop_line_detector d cc :=
  mk_control_center (obstacle_distance_filter cc) (stop_distance_filter cc) d
    (status_code_threshold cc) (path_finder cc) (drive_instructions cc)
    (road_segments cc) (finished_id_buffer cc) (state cc) (stop_reason cc)
    (finish_when_stopped cc) (consecutive_0_status_codes cc) (last_angle cc).

Definition set_path_finder p cc :=
  mk_control_center (obstacle_distance_filter cc) (stop_distance_filter cc)
    (stop_line_detector cc) (status_code_threshold cc) p
    (drive_instructions cc) (road_segments cc) (finished_id_buffer cc)
    (state cc) (stop_reason cc) (finish_when_stopped cc)
    (consecutive_0_status_codes cc) (last_angle cc).

Definition set_drive_instructions l cc :=
  mk_control_center (obstacle_distance_filter cc) (stop_distance_filter cc)
    (stop_line_detector cc) (status_code_threshold cc) (path_finder cc) l
    (road_segments cc) (finished_id_buffer cc) (state cc) (stop_reason cc)
    (finish_when_stopped cc) (consecutive_0_status_codes cc) (last_angle cc).

Definition set_road_segments l cc :=
  mk_control_center (obstacle_distance_filter cc) (stop_distance_filter cc)
    (stop_line_detector cc) (status_code_threshold cc) (path_finder cc)
    (drive_instructions cc) l (finished_id_buffer cc) (state cc)
    (stop_reason cc) (finish_when_stopped cc)
    (consecutive_0_status_codes cc) (last_angle cc).

Definition set_finished_id_buffer l cc :=
  mk_control_center (obstacle_distance_filter cc) (stop_distance_filter cc)
    (stop_line_detector cc) (status_code_threshold cc) (path_finder cc)
    (drive_instructions cc) (road_segments cc) l (state cc) (stop_reason cc)
    (finish_when_stopped cc) (consecutive_0_status_codes cc) (last_angle cc).

Definition set_state s cc :=
  mk_control_center (obstacle_distance_filter cc) (stop_distance_filter cc)
    (stop_line_detector cc) (status_code_threshold cc) (path_finder cc)
    (drive_instructions cc) (road_segments cc) (finished_id_buffer cc) s
    (stop_reason cc) (finish_when_stopped cc)
    (consecutive_0_status_codes cc) (last_angle cc).

Definition set_stop_reason s cc :=
  mk_control_center (obstacle_distance_filter cc) (stop_distance_filter cc)
    (stop_line_detector cc) (status_code_threshold cc) (path_finder cc)
    (drive_instructions cc) (road_segments cc) (finished_id_buffer cc)
    (state cc) s (finish_when_stopped cc) (consecutive_0_status_codes cc)
    (last_angle cc).

Definition set_finish_when_stopped b cc :=
  mk_control_center (obstacle_distance_filter cc) (stop_distance_filter cc)
    (stop_line_detector cc) (status_code_threshold cc) (path_finder cc)
    (drive_instructions cc) (road_segments cc) (finished_id_buffer cc)
    (state cc) (stop_reason cc) b (consecutive_0_status_codes cc)
    (last_angle cc).

Definition set_consecutive_0_status_codes n cc :=
  mk_control_center (obstacle_distance_filter cc) (stop_distance_filter cc)
    (stop_line_detector cc) (status_code_threshold cc) (path_finder cc)
    (drive_instructions cc) (road_segments cc) (finished_id_buffer cc)
    (state cc) (stop_reason cc) (finish_when_stopped cc) n (last_angle cc).

Definition set_last_angle a cc :=
  mk_control_center (obstacle_distance_filter cc) (stop_distance_filter cc)
    (stop_line_detector cc) (status_code_threshold cc) (path_finder cc)
    (drive_instructions cc) (road_segments cc) (finished_id_buffer cc)
    (state cc) (stop_reason cc) (finish_when_stopped cc)
    (consecutive_0_status_codes cc) a.

(** Modelled from the spec: the members the constructor's initialiser list
    does not mention get their value from the class declaration, which is
    not among the sources. The spec gives the initial state [stop_line];
    the queues start empty, the flag unset, the counter at zero. *)
Definition new_ControlCenter
    (obstacle_distance_filter_len stop_distance_filter_len : nat)
    (consecutive_param high_count_param : Z)
    (status_code_threshold : N) : ControlCenter :=
  {| obstacle_distance_filter :=
       DistanceFilter.make obstacle_distance_filter_len 100;
     stop_distance_filter := DistanceFilter.make stop_distance_filter_len 0;
     stop_line_detector := make_detector consecutive_param high_count_param;
     status_code_threshold := status_code_threshold;
     path_finder := empty_path_finder;
     drive_instructions := [];
     road_segments := [];
     finished_id_buffer := [];
     state := state.stop_line;
     stop_reason := state.stop_line;
     finish_when_stopped := false;
     consecutive_0_status_codes := 0%N;
     last_angle := 0 |}.

(** ** The plan *)

Definition add_drive_instruction
    (instr : instruction.InstructionNumber) (id : string)
    (cc : ControlCenter) : ControlCenter :=
  let drive_instruction := mk_drive_instruction instr id in
  set_drive_instructions (drive_instructions cc ++ [drive_instruction]) cc.

(** [front()] and [pop_front()] of an empty list are undefined. *)
Definition finish_instruction (cc : ControlCenter) : option ControlCenter :=
  match drive_instructions cc with
  | [] => None
  | front :: rest =>
      let id := id front in
      let cc := set_drive_instructions rest cc in
      let cc := match road_segments cc with
                | [] => cc
                | _ :: segs => set_road_segments segs cc
                end in
      Some (set_finished_id_buffer (finished_id_buffer cc ++ [id]) cc)
  end.

Definition get_current_road_segment (cc : ControlCenter) : string :=
  match road_segments cc with
  | [] => "end"%string
  | s :: _ => s
  end.

Definition get_current_drive_instruction (cc : ControlCenter)
  : option drive_instruction_t := hd_error (drive_instructions cc).

Definition finished_instruction (cc : ControlCenter) : bool :=
  match finished_id_buffer cc with [] => false | _ => true end.

Definition get_finished_instruction_id (cc : ControlCenter)
  : ControlCenter * string :=
  match finished_id_buffer cc with
  | [] => (cc, EmptyString)
  | id :: rest => (set_finished_id_buffer rest cc, id)
  end.

Definition get_state (cc : ControlCenter) : state.ControlState := state cc.


(** ** The state machine *)

Definition set_new_state (speed : Z) (cc : ControlCenter) : ControlCenter :=
  let instr := match drive_instructions cc with
               | [] => instruction.stop
               | front :: _ => number front
               end in
  match instr with
  | instruction.forward => set_state state.normal cc
  | instruction.left | instruction.right => set_state state.intersection cc
  | instruction.stop =>
      if speed >? 0
      then set_state state.stopping (set_stop_reason state.stop_line cc)
      else set_state state.stop_line cc
  end.

Definition update_state (obstacle_distance stop_distance speed : Z)
    (cc : ControlCenter) : option ControlCenter :=
  match drive_instructions cc with
  | [] =>
      if speed >? 0
      then Some (set_stop_reason state.stop_line (set_state state.stopping cc))
      else Some (set_state state.stop_line cc)
  | _ :: _ =>
      match state cc with
      | state.normal | state.intersection =>
          if path_blocked obstacle_distance
          then Some (set_stop_reason state.blocked
                       (set_state state.stopping cc))
          else
            let (d, at_node) := at_line (stop_line_detector cc) stop_distance in
            let cc := set_stop_line_detector d cc in
            if at_node then
              if (1 <? length (drive_instructions cc))%nat then
                cc <- finish_instruction cc ;;
                Some (set_new_state speed cc)
              else
                Some (set_stop_reason state.stop_line
                        (set_state state.stopping
                           (set_finish_when_stopped true cc)))
            else Some cc
      | state.stop_line =>
          if path_blocked obstacle_distance
          then Some (set_state state.blocked cc)
          else
            front <- hd_error (drive_instructions cc) ;;
            cc <- (if instruction.eqb (number front) instruction.stop
                   then finish_instruction cc else Some cc) ;;
            let (d, _) := at_line (stop_line_detector cc) stop_distance in
            Some (set_new_state speed (set_stop_line_detector d cc))
      | state.blocked =>
          if negb (path_blocked obstacle_distance)
          then Some (set_new_state speed cc)
          else Some cc
      | state.stopping =>
          if speed =? 0 then
            let cc := set_state (stop_reason cc) cc in
            if finish_when_stopped cc then
              cc <- finish_instruction cc ;;
              Some (set_finish_when_stopped false cc)
            else Some cc
          else Some cc
      end
  end.

(** ** The control command *)

Definition calculate_speed (cc : ControlCenter) : Z :=
  match state cc with
  | state.normal => DEFAULT_SPEED
  | state.intersection => INTERSECTION_SPEED
  | state.stop_line | state.stopping | state.blocked => 0
  end.

Definition set_regulation (m : regulation_mode.RegulationMode)
    (c : control_t) : control_t :=
  mk_control (angle c) (lateral_position c) (speed_ref c) m.

Definition choose_regulation_mode (control_data : control_t)
    (status_code : Z) (cc : ControlCenter) : ControlCenter * control_t :=
  let cc :=
    if status_code =? 0
    then set_consecutive_0_status_codes
           (unsigned_succ (consecutive_0_status_codes cc)) cc
    else set_consecutive_0_status_codes 0%N cc in
  if (status_code_threshold cc <=? consecutive_0_status_codes cc)%N
  then (cc, set_regulation regulation_mode.auto_nominal control_data)
  else (cc, set_regulation regulation_mode.auto_critical control_data).

(** [drive_instructions.front()] without a check: undefined on an empty
    plan. *)
Definition calculate_lateral_position (lateral_left lateral_right : Z)
    (cc : ControlCenter) : option Z :=
  front <- hd_error (drive_instructions cc) ;;
  match number front with
  | instruction.forward => Some (int_div (int_add lateral_left lateral_right) 2)
  | instruction.left => Some lateral_left
  | instruction.right => Some lateral_right
  | instruction.stop => Some 0
  end.

Definition calculate_angle (angle_left angle_right : Z)
    (cc : ControlCenter) : option (ControlCenter * Z) :=
  front <- hd_error (drive_instructions cc) ;;
  let expected := is_expected (last_angle cc) in
  let angle :=
    match number front with
    | instruction.forward =>
        if expected angle_left && expected angle_right
        then int_div (int_add angle_left angle_right) 2
        else if expected angle_left then angle_left
        else if expected angle_right then angle_right
        else int_div (int_add angle_left angle_right) 2
    | instruction.left =>
        if expected angle_left then angle_left
        else if expected angle_right then angle_right
        else angle_left
    | instruction.right =>
        if expected angle_right then angle_right
        else if expected angle_left then angle_left
        else angle_right
    | instruction.stop => 0
    end in
  Some (set_last_angle angle cc, angle).

(** [ControlCenter::operator()]: one tick. *)
Definition tick
    (obstacle_distance stop_distance speed
     angle_left angle_right lateral_left lateral_right
     image_processing_status_code : Z)
    (cc : ControlCenter) : option (ControlCenter * control_t) :=
  let control_data := mk_control 0 0 0 regulation_mode.auto_nominal in
  let stop_distance := if stop_distance =? -1 then 1000 else stop_distance in
  let obstacle_distance :=
    if obstacle_distance =? 0 then 1000 else obstacle_distance in
  let (f_obstacle, obstacle_distance) :=
    DistanceFilter.filter (obstacle_distance_filter cc) obstacle_distance in
  let cc := set_obstacle_distance_filter f_obstacle cc in
  let (f_stop, stop_distance) :=
    DistanceFilter.filter (stop_distance_filter cc) stop_distance in
  let cc := set_stop_distance_filter f_stop cc in
  cc <- update_state obstacle_distance stop_distance speed cc ;;
  let (cc, control_data) :=
    choose_regulation_mode control_data image_processing_status_code cc in
  r <- calculate_angle angle_left angle_right cc ;;
  let (cc, a) := r : ControlCenter * Z in
  l <- calculate_lateral_position lateral_left lateral_right cc ;;
  Some (cc, mk_control a l (calculate_speed cc) (regulation control_data)).

(** ** Missions *)

(** The loop that saves one solved path: the instruction iterator drives
    it, and the segment iterator is read at every step; reading it at the
    end of the segment list is undefined. *)
Fixpoint save_path (new_instructions : list instruction.InstructionNumber)
    (new_segments : list string) (cc : ControlCenter)
    : option ControlCenter :=
  match new_instructions with
  | [] => Some cc
  | inst :: insts =>
      match new_segments with
      | [] => None
      | segm :: segms =>
          save_path insts segms (add_drive_instruction inst segm cc)
      end
  end.

(** The range-for over the remaining targets. *)
Fixpoint mission_legs (start_node : string) (target_list : list string)
    (cc : ControlCenter) : option (completion ControlCenter) :=
  match target_list with
  | [] => Some (Returned cc)
  | target_node :: targets =>
      let cc := add_drive_instruction instruction.stop start_node cc in
      let cc := set_road_segments (road_segments cc ++ [start_node]) cc in
      match solve (path_finder cc) start_node target_node with
      | None => Some (Thrown cc)
      | Some p =>
          let cc := set_path_finder p cc in
          let new_instructions := get_drive_mission (path_finder cc) in
          let new_segments := get_road_segments (path_finder cc) in
          cc <- save_path new_instructions new_segments cc ;;
          let cc := set_road_segments (road_segments cc ++ new_segments) cc in
          mission_legs target_node targets cc
      end
  end.

Definition set_drive_missions (target_list : list string)
    (cc : ControlCenter) : option (completion ControlCenter) :=
  match target_list with
  | [] => None
  | start_node :: target_list =>
      let cc := set_drive_instructions [] cc in
      let cc := set_road_segments [] cc in
      mission_legs start_node target_list cc
  end.

(** ** Notions the statements use *)

(** Segments trail instructions. *)
Definition aligned (cc : ControlCenter) : Prop :=
  (length (road_segments cc) <= length (drive_instructions cc))%nat.

(** [finish_instruction] called [n] times in a row. *)
Fixpoint finish_many (n : nat) (cc : ControlCenter) : option ControlCenter :=
  match n with
  | O => Some cc
  | S n' => cc <- finish_instruction cc ;; finish_many n' cc
  end.

(** The entries a solved path contributes to the plan: instruction and
    segment name, pairwise. *)
Definition path_entries (insts : list instruction.InstructionNumber)
    (segms : list string) : list drive_instruction_t :=
  map (fun p => mk_drive_instruction (fst p) (snd p)) (combine insts segms).

(** The regulation modes of a run of ticks, as far as
    [choose_regulation_mode] goes: one mode per status code. *)
Fixpoint regulation_modes (status_codes : list Z) (cc : ControlCenter)
    : list regulation_mode.RegulationMode :=
  match status_codes with
  | [] => []
  | status_code :: rest =>
      let (cc', c) :=
        choose_regulation_mode
          (mk_control 0 0 0 regulation_mode.auto_nominal) status_code cc in
      regulation c :: regulation_modes rest cc'
  end.

(** The number of zero status codes at the end of a run. *)
Fixpoint zeros_at_front (l : list Z) : N :=
  match l with
  | 0 :: rest => N.succ (zeros_at_front rest)
  | _ => 0%N
  end.

Definition trailing_zeros (status_codes : list Z) : N :=
  zeros_at_front (rev status_codes).

(** The counter after one status code. *)
Definition count_step (c : N) (status_code : Z) : N :=
  if status_code =? 0 then unsigned_succ c else 0%N.

(** [update_state] over a run of ticks. *)
Fixpoint update_states (inputs : list (Z * Z * Z)) (cc : ControlCenter)
    : option ControlCenter :=
  match inputs with
  | [] => Some cc
  | (obstacle_distance, stop_distance, speed) :: rest =>
      cc <- update_state obstacle_distance stop_distance speed cc ;;
      update_states rest cc
  end.

(** The object a call leaves behind, however it ended. *)
Definition object_of {A : Type} (c : completion A) : A :=
  match c with
  | Returned a => a
  | Thrown a => a
  end.

(** The planner's contract on lengths: at least one segment name per
    instruction, and one to one. *)
Definition enough_segments : Prop :=
  forall (p p' : P) (a b : string),
    solve p a b = Some p' ->
    (length (get_drive_mission p') <= length (get_road_segments p'))%nat.

Definition lengths_match : Prop :=
  forall (p p' : P) (a b : string),
    solve p a b = Some p' ->
    length (get_drive_mission p') = length (get_road_segments p').

(** What a mission is expected to put in the plan: per leg a stop tagged
    with the leg's start, then the planner's instructions, each tagged with
    the segment name at the same position. A leg the planner refuses ends
    the list after its stop. *)
Fixpoint mission_entries (p : P) (start_node : string)
    (target_list : list string) : list drive_instruction_t :=
  match target_list with
  | [] => []
  | target_node :: targets =>
      mk_drive_instruction instruction.stop start_node ::
      match solve p start_node target_node with
      | None => []
      | Some p' =>
          path_entries (get_drive_mission p') (get_road_segments p')
          ++ mission_entries p' target_node targets
      end
  end.

(** And in the segment queue. *)
Fixpoint mission_segments (p : P) (start_node : string)
    (target_list : list string) : list string :=
  match target_list with
  | [] => []
  | target_node :: targets =>
      start_node ::
      match solve p start_node target_node with
      | None => []
      | Some p' =>
          get_road_segments p' ++ mission_segments p' target_node targets
      end
  end.

(** ** Further notions *)

(** [get_finished_instruction_id] called [n] times in a row, with the ids
    it returned, oldest first. *)
Fixpoint poll_many (n : nat) (cc : ControlCenter)
    : ControlCenter * list string :=
  match n with
  | O => (cc, [])
  | S n' =>
      let (cc1, first) := get_finished_instruction_id cc in
      let (cc2, ids) := poll_many n' cc1 in
      (cc2, first :: ids)
  end.

(** Every instruction of the plan carries the name of the segment at the
    same place of the segment queue. *)
Definition tagged (cc : ControlCenter) : Prop :=
  map id (drive_instructions cc) = road_segments cc.

(** The stop reason is one of the two values the code assigns to it. *)
Definition stop_reason_assigned (cc : ControlCenter) : Prop :=
  stop_reason cc = state.stop_line \/ stop_reason cc = state.blocked.

(** The vehicle is told to drive. *)
Definition driving (s : state.ControlState) : bool :=
  match s with
  | state.normal | state.intersection => true
  | _ => false
  end.

(** The state [set_new_state] derives from an instruction and the speed. *)
Definition state_for (instr : instruction.InstructionNumber) (speed : Z)
    : state.ControlState :=
  match instr with
  | instruction.forward => state.normal
  | instruction.left | instruction.right => state.intersection
  | instruction.stop => if speed >? 0 then state.stopping else state.stop_line
  end.

(** The obstacle distance [update_state] receives in a tick: the reading,
    with the sentinel replaced, through the obstacle filter. *)
Definition filtered_obstacle_distance (obstacle_distance : Z)
    (cc : ControlCenter) : Z :=
  snd (DistanceFilter.filter (obstacle_distance_filter cc)
         (if obstacle_distance =? 0 then 1000 else obstacle_distance)).

(** Everything but the plan, the segments and the planner is the same in
    both objects. *)
Definition same_machine (a b : ControlCenter) : Prop :=
  state b = state a
  /\ stop_reason b = stop_reason a
  /\ finish_when_stopped b = finish_when_stopped a
  /\ finished_id_buffer b = finished_id_buffer a
  /\ consecutive_0_status_codes b = consecutive_0_status_codes a
  /\ status_code_threshold b = status_code_threshold a
  /\ last_angle b = last_angle a
  /\ stop_line_detector b = stop_line_detector a
  /\ obstacle_distance_filter b = obstacle_distance_filter a
  /\ stop_distance_filter b = stop_distance_filter a.

End ControlCenter.

Arguments ControlCenter D P : clear implicits.

(** ** A small instance

    A detector that fires below a fixed distance, a planner for a track on
    which every leg is one straight followed by one left turn, and settings
    with angles expected within 90 degrees of straight ahead. *)

Module Example.

#[export] Instance detector : StopLineDetector unit := {|
  make_detector := fun _ _ => tt;
  at_line := fun d distance => (d, distance <? 10)
|}.

Definition planner : Type :=
  list instruction.InstructionNumber * list string.

#[export] Instance path_finder : PathFinder planner := {|
  empty_path_finder := ([], []);
  solve := fun _ start target =>
    if String.eqb start target then None
    else Some ([instruction.forward; instruction.left],
               [(start ++ "1")%string; (target ++ "0")%string]);
  get_drive_mission := fst;
  get_road_segments := snd
|}.

#[export] Instance settings : Settings := {|
  DEFAULT_SPEED := 200;
  INTERSECTION_SPEED := 100;
  path_blocked := fun distance => distance <? 20;
  is_expected := fun _ a => (-90 <=? a) && (a <=? 90)
|}.

Definition CC : Type := ControlCenter unit planner.

(** A fresh object with filters of length 2 and a threshold of 3. *)
Definition fresh : CC := new_ControlCenter 2 2 3 5 3%N.

(** The object with a plan given directly. *)
Definition with_plan (l : list drive_instruction_t)
    (s : state.ControlState) : CC :=
  set_state s (set_drive_instructions l fresh).

Definition go (i : instruction.InstructionNumber) : drive_instruction_t :=
  mk_drive_instruction i "m".

(** The object with filters of length 1, which follow the readings at
    once. *)
Definition alert_with_plan (l : list drive_instruction_t)
    (s : state.ControlState) : CC :=
  set_state s (set_drive_instructions l (new_ControlCenter 1 1 3 5 3%N)).

Definition straight_then_left : list drive_instruction_t :=
  [mk_drive_instruction instruction.forward "a";
   mk_drive_instruction instruction.left "b"].

End Example.

(** * Properties *)

(** ** DistanceFilter *)

Module DistanceFilterFacts.
Import DistanceFilter.

Lemma sum_repeat (x : Z) (n : nat) : sum (repeat x n) = Z.of_nat n * x.
Proof.
  induction n as [|n IH]; [reflexivity|].
  cbn [repeat sum fold_right]. fold (sum (repeat x n)). rewrite IH. lia.
Qed.

Lemma mean_repeat (x : Z) (n : nat) : (1 <= n)%nat -> mean (repeat x n) = x.
Proof.
  intros Hn. unfold mean. rewrite sum_repeat, repeat_length.
  rewrite Z.mul_comm. apply Z.quot_mul. lia.
Qed.

(** After [k] calls with [x] on a window of [m] old samples followed by
    [j] samples [x], the window holds [m - k] old samples and [j + k]
    samples [x]. *)
Lemma filter_shift (old : list Z) (x : Z) (j : nat) (o : Z) :
  filter (mk (o :: old ++ repeat x j)) x
  = (mk (old ++ repeat x (S j)), mean (old ++ repeat x (S j))).
Proof.
  unfold filter. cbn [window tl app].
  rewrite <- app_assoc.
  replace (repeat x j ++ [x]) with (repeat x (S j)); [reflexivity|].
  rewrite <- (repeat_cons j x). reflexivity.
Qed.

Lemma feed_window (old : list Z) (x : Z) : forall (j : nat) (last : Z),
  (1 <= length old)%nat ->
  feed (length old) (mk (old ++ repeat x j)) x last
  = (mk (repeat x (length old + j)), x).
Proof.
  induction old as [|o old IH]; intros j last Hlen; [cbn in Hlen; lia|].
  cbn [length feed app]. rewrite filter_shift.
  destruct old as [|o' old'].
  - cbn [app length feed Nat.add]. f_equal. apply mean_repeat. lia.
  - rewrite IH by (cbn; lia).
    f_equal. f_equal. cbn [length]. f_equal. lia.
Qed.

(** C9. A filter with a window of [N >= 1] samples that receives [x] on
    [N] consecutive calls returns exactly [x] on the [N]-th call, whatever
    value [v0] it was seeded with. *)
Theorem filter_constant_input (N : nat) (v0 x last : Z) :
  (1 <= N)%nat -> snd (feed N (make N v0) x last) = x.
Proof.
  intros HN. unfold make.
  pose proof (feed_window (repeat v0 N) x 0 last) as Hfeed.
  rewrite repeat_length in Hfeed. cbn [repeat] in Hfeed.
  rewrite app_nil_r in Hfeed. rewrite Hfeed by exact HN. reflexivity.
Qed.

Lemma filter_constant_input_witness :
  (1 <= 3)%nat /\ snd (feed 3 (make 3 7) (-5) 0) = -5.
Proof.
  split; [lia | apply (filter_constant_input 3 7 (-5) 0); lia].
Defined.

End DistanceFilterFacts.

(** ** The control center *)

Section ControlCenterFacts.

Context {D P : Type} `{StopLineDetector D} `{PathFinder P} `{Settings}.

Local Abbreviation CC := (ControlCenter D P).

(** *** The empty plan *)

Lemma update_state_keeps_empty_plan (o s v : Z) (cc : CC) :
  drive_instructions cc = [] ->
  exists cc', update_state o s v cc = Some cc'
              /\ drive_instructions cc' = [].
Proof.
  intros Hempty. unfold update_state. rewrite Hempty.
  destruct (v >? 0); eexists; (split; [reflexivity|exact Hempty]).
Qed.

Lemma choose_regulation_mode_plan (c : control_t) (code : Z) (cc : CC) :
  drive_instructions (fst (choose_regulation_mode c code cc))
  = drive_instructions cc.
Proof.
  unfold choose_regulation_mode.
  destruct (code =? 0);
    match goal with |- context [if ?b then _ else _] => destruct b end;
    reflexivity.
Qed.

Lemma calculate_angle_empty_plan (l r : Z) (cc : CC) :
  drive_instructions cc = [] -> calculate_angle l r cc = None.
Proof. intros E. unfold calculate_angle. rewrite E. reflexivity. Qed.

Lemma calculate_lateral_position_empty_plan (l r : Z) (cc : CC) :
  drive_instructions cc = [] -> calculate_lateral_position l r cc = None.
Proof. intros E. unfold calculate_lateral_position. rewrite E. reflexivity. Qed.

(** C1, as the code has it. When the plan is empty the tick reaches
    [calculate_angle], which reads the front of the empty plan: the call has
    no defined result, whatever the readings are. *)
Theorem tick_empty_plan_undefined
    (o s v al ar ll lr code : Z) (cc : CC) :
  drive_instructions cc = [] ->
  tick o s v al ar ll lr code cc = None.
Proof.
  intros Hempty. unfold tick. cbv beta iota zeta. unfold DistanceFilter.filter.
  match goal with
  | |- context [update_state ?a ?b ?c ?x] =>
      destruct (update_state_keeps_empty_plan a b c x) as (cc' & -> & Hcc')
  end; [exact Hempty|].
  cbn [bind].
  pose proof (choose_regulation_mode_plan
                (mk_control 0 0 0 regulation_mode.auto_nominal) code cc')
    as Hreg.
  destruct (choose_regulation_mode _ code cc') as [cc'' c]. cbn [fst] in Hreg.
  rewrite calculate_angle_empty_plan by congruence. reflexivity.
Qed.

(** C5. With an empty plan [update_state] stops the vehicle: the state
    becomes [stopping] with stop reason [stop_line] when it moves and
    [stop_line] otherwise; the plan, the segments, the completion buffer and
    every other member keep their value, the detector included. *)
Theorem update_state_empty_plan (o s v : Z) (cc : CC) :
  drive_instructions cc = [] ->
  exists cc',
    update_state o s v cc = Some cc'
    /\ (0 < v -> state cc' = state.stopping
                 /\ stop_reason cc' = state.stop_line)
    /\ (v <= 0 -> state cc' = state.stop_line
                  /\ stop_reason cc' = stop_reason cc)
    /\ drive_instructions cc' = drive_instructions cc
    /\ road_segments cc' = road_segments cc
    /\ finished_id_buffer cc' = finished_id_buffer cc
    /\ stop_line_detector cc' = stop_line_detector cc
    /\ finish_when_stopped cc' = finish_when_stopped cc
    /\ consecutive_0_status_codes cc' = consecutive_0_status_codes cc
    /\ last_angle cc' = last_angle cc
    /\ path_finder cc' = path_finder cc
    /\ obstacle_distance_filter cc' = obstacle_distance_filter cc
    /\ stop_distance_filter cc' = stop_distance_filter cc.
Proof.
  intros Hempty. unfold update_state. rewrite Hempty.
  destruct (Z.gtb_spec v 0) as [Hv|Hv]; eexists; (split; [reflexivity|]);
    cbn; (split; [intros Hpos|split; [intros Hneg|]]);
    repeat split; try reflexivity; try assumption; lia.
Qed.

(** C7. Right after construction the state is [stop_line]. *)
Theorem initial_state_stop_line
    (obstacle_len stop_len : nat) (consecutive high_count : Z) (threshold : N) :
  get_state (new_ControlCenter obstacle_len stop_len consecutive high_count
               threshold : CC) = state.stop_line.
Proof. reflexivity. Qed.

(** *** The angle *)

Lemma wrap_int_in_range (z : Z) : int_range z -> wrap_int z = z.
Proof.
  unfold int_range, INT_MIN, INT_MAX, wrap_int. intros Hz.
  rewrite Z.mod_small; lia.
Qed.

Lemma int_average (a b : Z) :
  int_range (a + b) -> int_div (int_add a b) 2 = Z.quot (a + b) 2.
Proof.
  intros Hsum. unfold int_div, int_add. rewrite wrap_int_in_range; trivial.
Qed.

Lemma wrap_int_above (a b : Z) :
  int_range a -> int_range b -> INT_MAX < a + b ->
  wrap_int (a + b) = a + b - 4294967296.
Proof.
  unfold int_range, INT_MIN, INT_MAX, wrap_int. intros Ha Hb Hsum.
  Z.to_euclidean_division_equations. lia.
Qed.

Lemma wrap_int_below (a b : Z) :
  int_range a -> int_range b -> a + b < INT_MIN ->
  wrap_int (a + b) = a + b + 4294967296.
Proof.
  unfold int_range, INT_MIN, INT_MAX, wrap_int. intros Ha Hb Hsum.
  Z.to_euclidean_division_equations. lia.
Qed.


(** *** The regulation mode *)

Lemma choose_regulation_mode_spec (c : control_t) (code : Z) (cc : CC) :
  let n := count_step (consecutive_0_status_codes cc) code in
  choose_regulation_mode c code cc
  = (set_consecutive_0_status_codes n cc,
     set_regulation
       (if (status_code_threshold cc <=? n)%N
        then regulation_mode.auto_nominal
        else regulation_mode.auto_critical) c).
Proof.
  unfold choose_regulation_mode, count_step.
  destruct (code =? 0); cbn;
    match goal with |- context [(?a <=? ?b)%N] => destruct (a <=? b)%N end;
    reflexivity.
Qed.

Lemma trailing_zeros_snoc (codes : list Z) (code : Z) :
  trailing_zeros (codes ++ [code])
  = if code =? 0 then N.succ (trailing_zeros codes) else 0%N.
Proof.
  unfold trailing_zeros. rewrite rev_app_distr. cbn [rev app].
  destruct code; reflexivity.
Qed.

Lemma trailing_zeros_le_length (codes : list Z) :
  (trailing_zeros codes <= N.of_nat (length codes))%N.
Proof.
  unfold trailing_zeros. rewrite <- length_rev.
  induction (rev codes) as [|code l IH]; [cbn; lia|].
  cbn [zeros_at_front length]. destruct code; lia.
Qed.

Lemma unsigned_succ_small (c : N) :
  (N.succ c < UINT_MODULUS)%N -> unsigned_succ c = N.succ c.
Proof. intros Hc. unfold unsigned_succ. apply N.mod_small, Hc. Qed.

Lemma firstn_succ_snoc {A : Type} (d : A) : forall (l : list A) (n : nat),
  (n < length l)%nat -> firstn (S n) l = firstn n l ++ [nth n l d].
Proof.
  induction l as [|x l IH]; intros n Hn; [cbn in Hn; lia|].
  destruct n as [|n]; [reflexivity|].
  cbn [length] in Hn.
  change (firstn (S (S n)) (x :: l)) with (x :: firstn (S n) l).
  rewrite (IH n) by lia. reflexivity.
Qed.

(** The mode of tick [n] of a run, by the counter the run started with. *)
Lemma regulation_modes_nth : forall (codes : list Z) (cc : CC) (n : nat),
  (n < length codes)%nat ->
  nth_error (regulation_modes codes cc) n
  = Some (if (status_code_threshold cc
              <=? fold_left count_step (firstn (S n) codes)
                    (consecutive_0_status_codes cc))%N
          then regulation_mode.auto_nominal
          else regulation_mode.auto_critical).
Proof.
  induction codes as [|code codes IH]; intros cc n Hn; [cbn in Hn; lia|].
  cbn [regulation_modes]. rewrite choose_regulation_mode_spec.
  destruct n as [|n].
  - cbn. destruct (_ <=? _)%N; reflexivity.
  - cbn [nth_error]. cbn [length] in Hn. rewrite IH by lia. reflexivity.
Qed.

(** Within the range of the counter it is the length of the run of zero
    status codes that ends the history. *)
Lemma fold_count_step_trailing (codes : list Z) :
  (N.of_nat (length codes) < UINT_MODULUS)%N ->
  fold_left count_step codes 0%N = trailing_zeros codes.
Proof.
  induction codes as [|code codes IH] using rev_ind; [reflexivity|].
  rewrite length_app. cbn [length]. intros Hlen.
  rewrite fold_left_app, trailing_zeros_snoc, IH by lia.
  cbn [fold_left]. unfold count_step.
  destruct (code =? 0); [|reflexivity].
  apply unsigned_succ_small.
  pose proof (trailing_zeros_le_length codes). lia.
Qed.

Lemma calculate_angle_object (l r a : Z) (cc cc' : CC) :
  calculate_angle l r cc = Some (cc', a) -> cc' = set_last_angle a cc.
Proof.
  unfold calculate_angle.
  destruct (hd_error (drive_instructions cc)); [|discriminate].
  cbn [bind]. intros Heq. inversion Heq. reflexivity.
Qed.

(** [update_state] leaves the threshold and the counter alone. *)
Lemma update_state_counter (o s v : Z) (cc cc' : CC) :
  update_state o s v cc = Some cc' ->
  status_code_threshold cc' = status_code_threshold cc
  /\ consecutive_0_status_codes cc' = consecutive_0_status_codes cc.
Proof.
  unfold update_state, finish_instruction, set_new_state.
  intros Hupdate.
  repeat (cbn in Hupdate;
          match type of Hupdate with
          | context [match ?x with _ => _ end] => destruct x eqn:?
          | context [if ?x then _ else _] => destruct x eqn:?
          end);
    cbn in Hupdate; try discriminate;
    injection Hupdate as <-; split; reflexivity.
Qed.

(** The mode a tick reports is the one [choose_regulation_mode] derives
    from the counter the tick started with. *)
Lemma tick_regulation (o s v al ar ll lr code : Z) (cc cc' : CC)
    (c : control_t) :
  tick o s v al ar ll lr code cc = Some (cc', c) ->
  let n := count_step (consecutive_0_status_codes cc) code in
  consecutive_0_status_codes cc' = n
  /\ status_code_threshold cc' = status_code_threshold cc
  /\ regulation c
     = if (status_code_threshold cc <=? n)%N
       then regulation_mode.auto_nominal
       else regulation_mode.auto_critical.
Proof.
  unfold tick. cbv zeta. unfold DistanceFilter.filter.
  match goal with
  | |- context [update_state ?a ?b ?d ?x] =>
      destruct (update_state a b d x) as [cc1|] eqn:Hupdate; [|discriminate]
  end.
  apply update_state_counter in Hupdate. cbn in Hupdate.
  destruct Hupdate as [Hth Hcount].
  cbn [bind]. rewrite choose_regulation_mode_spec.
  destruct (calculate_angle al ar _) as [[cc2 a]|] eqn:Hangle; [|discriminate].
  apply calculate_angle_object in Hangle. cbn [bind].
  destruct (calculate_lateral_position ll lr cc2); [|discriminate].
  cbn [bind]. intros Heq. inversion Heq. subst. cbn.
  rewrite Hth, Hcount. repeat split.
Qed.

(** C3, as the code has it. With a threshold of 0 the test
    [consecutive_0_status_codes >= status_code_threshold] holds for every
    value of the counter: the mode is [auto_nominal] on every tick, the
    ticks with a non-zero status code included, although such a tick brings
    the counter to 0. *)
Theorem regulation_threshold_zero_nominal
    (c : control_t) (status_code : Z) (cc : CC) :
  status_code_threshold cc = 0%N ->
  regulation (snd (choose_regulation_mode c status_code cc))
  = regulation_mode.auto_nominal
  /\ (status_code <> 0 ->
      consecutive_0_status_codes (fst (choose_regulation_mode c status_code cc))
      = 0%N).
Proof.
  intros Hzero. rewrite choose_regulation_mode_spec. cbn [fst snd].
  rewrite Hzero. cbn [regulation set_regulation set_consecutive_0_status_codes
                        consecutive_0_status_codes].
  rewrite (proj2 (N.leb_le 0 _) (N.le_0_l _)). split; [reflexivity|].
  intros Hcode. unfold count_step.
  destruct (Z.eqb_spec status_code 0); [contradiction|reflexivity].
Qed.

(** The hysteresis, for a threshold of at least 1 and within the range of
    the counter. From a counter at zero and for a run shorter than the
    counter can count, the mode of every tick is [auto_nominal] exactly when
    the zero status codes that end the run so far, the current one included,
    are at least the threshold; a non-zero status code brings that count to
    zero, and with a threshold of at least 1 the mode of that tick is
    [auto_critical]. *)
Theorem regulation_mode_hysteresis (codes : list Z) (cc : CC) (n : nat) :
  consecutive_0_status_codes cc = 0%N ->
  (N.of_nat (length codes) < UINT_MODULUS)%N ->
  (n < length codes)%nat ->
  exists mode,
    nth_error (regulation_modes codes cc) n = Some mode
    /\ (mode = regulation_mode.auto_nominal
        <-> (status_code_threshold cc
             <= trailing_zeros (firstn (S n) codes))%N)
    /\ (nth n codes 0 <> 0 ->
        trailing_zeros (firstn (S n) codes) = 0%N
        /\ ((1 <= status_code_threshold cc)%N ->
            mode = regulation_mode.auto_critical)).
Proof.
  intros Hzero Hrange Hn. rewrite regulation_modes_nth by exact Hn.
  rewrite Hzero, fold_count_step_trailing
    by (pose proof (firstn_le_length (S n) codes); lia).
  set (run := trailing_zeros (firstn (S n) codes)).
  assert (Hrun : nth n codes 0 <> 0 -> run = 0%N).
  { intros Hcode. subst run. rewrite (firstn_succ_snoc 0) by exact Hn.
    rewrite trailing_zeros_snoc.
    destruct (Z.eqb_spec (nth n codes 0) 0); [contradiction|reflexivity]. }
  eexists. split; [reflexivity|].
  destruct (N.leb_spec (status_code_threshold cc) run) as [Hle|Hlt].
  - split; [tauto|]. intros Hcode. specialize (Hrun Hcode).
    split; [exact Hrun|]. intros Hth. lia.
  - split; [split; [discriminate|lia]|]. intros Hcode. specialize (Hrun Hcode).
    split; [exact Hrun|]. reflexivity.
Qed.

(** *** Finishing instructions *)

Lemma set_new_state_frame (v : Z) (cc : CC) :
  state (set_new_state v cc)
  = state_for (match drive_instructions cc with
               | [] => instruction.stop
               | front :: _ => number front
               end) v
  /\ drive_instructions (set_new_state v cc) = drive_instructions cc
  /\ road_segments (set_new_state v cc) = road_segments cc
  /\ finished_id_buffer (set_new_state v cc) = finished_id_buffer cc
  /\ finish_when_stopped (set_new_state v cc) = finish_when_stopped cc
  /\ stop_line_detector (set_new_state v cc) = stop_line_detector cc.
Proof.
  unfold set_new_state, state_for.
  destruct (drive_instructions cc) as [|front rest] eqn:E;
    [|destruct (number front)]; try destruct (v >? 0); cbn;
    rewrite ?E; repeat split; reflexivity.
Qed.

Lemma finish_instruction_front (cc : CC) (front : drive_instruction_t)
    (rest : list drive_instruction_t) :
  drive_instructions cc = front :: rest ->
  finish_instruction cc
  = Some (set_finished_id_buffer (finished_id_buffer cc ++ [id front])
            (set_road_segments (tl (road_segments cc))
               (set_drive_instructions rest cc))).
Proof.
  intros Hfront. unfold finish_instruction. rewrite Hfront.
  destruct cc as [? ? ? ? ? ? segs ? ? ? ? ? ?]; cbn in *.
  destruct segs; reflexivity.
Qed.

(** While the vehicle moves, a machine in [stopping] stays as it is. *)
Lemma update_states_stopping_moving (cc : CC) :
  drive_instructions cc <> [] ->
  state cc = state.stopping ->
  forall inputs : list (Z * Z * Z),
    Forall (fun i => snd i <> 0) inputs ->
    update_states inputs cc = Some cc.
Proof.
  intros Hplan Hstate inputs Hmoving.
  induction Hmoving as [|[[o s] v] inputs Hv _ IH]; [reflexivity|].
  cbn [update_states snd] in *. unfold update_state.
  destruct (drive_instructions cc) eqn:E; [contradiction|].
  rewrite Hstate. destruct (Z.eqb_spec v 0); [contradiction|].
  cbn [bind]. exact IH.
Qed.

(** C4. In [normal] or [intersection], on a path that is not blocked, when
    the detector fires: with more than one instruction in the plan the front
    one is finished (popped, its id buffered) and the state is recomputed
    from the new front ([normal] for forward, [intersection] for a turn, for
    a stop [stopping] with reason [stop_line] when the vehicle moves and
    [stop_line] otherwise); with exactly one, [finish_when_stopped] is armed
    and
    the machine goes to [stopping] for reason [stop_line], the plan
    untouched. From there every call made while the vehicle moves changes
    nothing, and the call with speed 0 finishes the instruction, enters
    [stop_line] and clears the flag. *)
Theorem stop_line_reached
    (o s v : Z) (cc : CC) (d : D) (front : drive_instruction_t)
    (rest : list drive_instruction_t) :
  state cc = state.normal \/ state cc = state.intersection ->
  path_blocked o = false ->
  at_line (stop_line_detector cc) s = (d, true) ->
  drive_instructions cc = front :: rest ->
  (rest <> [] ->
   exists cc1,
     finish_instruction (set_stop_line_detector d cc) = Some cc1
     /\ drive_instructions cc1 = rest
     /\ finished_id_buffer cc1 = finished_id_buffer cc ++ [id front]
     /\ update_state o s v cc = Some (set_new_state v cc1)
     /\ drive_instructions (set_new_state v cc1) = rest
     /\ finished_id_buffer (set_new_state v cc1)
        = finished_id_buffer cc ++ [id front]
     /\ match rest with
        | [] => True
        | next :: _ =>
            match number next with
            | instruction.forward =>
                state (set_new_state v cc1) = state.normal
            | instruction.left | instruction.right =>
                state (set_new_state v cc1) = state.intersection
            | instruction.stop =>
                if v >? 0
                then state (set_new_state v cc1) = state.stopping
                     /\ stop_reason (set_new_state v cc1) = state.stop_line
                else state (set_new_state v cc1) = state.stop_line
            end
        end)
  /\ (rest = [] ->
      exists armed,
        update_state o s v cc = Some armed
        /\ finish_when_stopped armed = true
        /\ state armed = state.stopping
        /\ stop_reason armed = state.stop_line
        /\ drive_instructions armed = [front]
        /\ finished_id_buffer armed = finished_id_buffer cc
        /\ (forall inputs : list (Z * Z * Z),
              Forall (fun i => snd i <> 0) inputs ->
              update_states inputs armed = Some armed)
        /\ (forall o' s' : Z,
              exists stopped,
                update_state o' s' 0 armed = Some stopped
                /\ state stopped = state.stop_line
                /\ finish_when_stopped stopped = false
                /\ drive_instructions stopped = []
                /\ finished_id_buffer stopped
                   = finished_id_buffer cc ++ [id front])).
Proof.
  intros Hstate Hclear Hfires Hplan.
  assert (Hupdate :
    update_state o s v cc
    = let cc := set_stop_line_detector d cc in
      if (1 <? length (drive_instructions cc))%nat
      then cc <- finish_instruction cc ;; Some (set_new_state v cc)
      else Some (set_stop_reason state.stop_line
                   (set_state state.stopping
                      (set_finish_when_stopped true cc)))).
  { unfold update_state. rewrite Hplan.
    destruct Hstate as [-> | ->]; rewrite Hclear, Hfires; reflexivity. }
  split.
  - intros Hrest. rewrite Hupdate. cbv zeta.
    cbn [set_stop_line_detector drive_instructions]. rewrite Hplan.
    destruct rest as [|next rest]; [contradiction|].
    cbn [length Nat.ltb Nat.leb].
    rewrite (finish_instruction_front _ front (next :: rest))
      by (cbn; exact Hplan).
    eexists. split; [reflexivity|]. cbn [bind].
    do 3 (split; [reflexivity|]).
    unfold set_new_state.
    cbn [drive_instructions set_finished_id_buffer set_road_segments
         set_drive_instructions].
    destruct (number next); [| | |destruct (v >? 0)]; cbn;
      repeat split; reflexivity.
  - intros ->. rewrite Hupdate. cbv zeta.
    cbn [set_stop_line_detector drive_instructions]. rewrite Hplan.
    cbn [length Nat.ltb Nat.leb].
    eexists. split; [reflexivity|]. cbn.
    repeat split; try assumption; try reflexivity.
    + intros inputs Hmoving.
      apply update_states_stopping_moving; cbn; trivial.
      rewrite Hplan. discriminate.
    + intros o' s'. unfold update_state. cbn. rewrite Hplan. cbn.
      unfold finish_instruction. cbn. rewrite Hplan. cbn.
      eexists. split; [reflexivity|].
      destruct (road_segments cc); cbn; repeat split; reflexivity.
Qed.

(** *** Alignment of segments and instructions *)

Lemma finish_instruction_aligned (cc : CC) :
  aligned cc ->
  drive_instructions cc <> [] ->
  exists cc',
    finish_instruction cc = Some cc'
    /\ aligned cc'
    /\ length (drive_instructions cc') = pred (length (drive_instructions cc)).
Proof.
  unfold aligned. intros Hal Hplan.
  destruct (drive_instructions cc) as [|front rest] eqn:E; [contradiction|].
  rewrite (finish_instruction_front cc front rest E).
  eexists. split; [reflexivity|]. cbn.
  destruct (road_segments cc); cbn in *; lia.
Qed.

Lemma finish_many_aligned : forall (n : nat) (cc : CC),
  aligned cc ->
  (n <= length (drive_instructions cc))%nat ->
  exists cc', finish_many n cc = Some cc' /\ aligned cc'.
Proof.
  induction n as [|n IH]; intros cc Hal Hn.
  - exists cc. split; [reflexivity|exact Hal].
  - destruct (finish_instruction_aligned cc Hal) as (cc1 & Hfin & Hal1 & Hlen).
    { destruct (drive_instructions cc); [cbn in Hn; lia|discriminate]. }
    cbn [finish_many]. rewrite Hfin. cbn [bind]. apply IH; [exact Hal1|lia].
Qed.

Lemma set_new_state_aligned (v : Z) (cc : CC) :
  aligned cc -> aligned (set_new_state v cc).
Proof.
  unfold aligned, set_new_state. intros Hal.
  destruct (drive_instructions cc) as [|front rest] eqn:E.
  - destruct (v >? 0); cbn; rewrite E; exact Hal.
  - destruct (number front); [| | |destruct (v >? 0)]; cbn; rewrite E;
      exact Hal.
Qed.

Lemma update_state_aligned (o s v : Z) (cc : CC) :
  aligned cc ->
  exists cc', update_state o s v cc = Some cc' /\ aligned cc'.
Proof.
  intros Hal. unfold update_state.
  destruct (drive_instructions cc) as [|front rest] eqn:E.
  { destruct (v >? 0); eexists; (split; [reflexivity|exact Hal]). }
  assert (Hne : forall (c : CC),
            drive_instructions c = drive_instructions cc ->
            drive_instructions c <> [])
    by (intros c ->; rewrite E; discriminate).
  assert (Hfin : forall (c : CC),
            drive_instructions c = drive_instructions cc ->
            road_segments c = road_segments cc ->
            exists c', finish_instruction c = Some c' /\ aligned c').
  { intros c Hd Hr.
    destruct (finish_instruction_aligned c) as (c' & Hc & Hc' & _).
    - unfold aligned. rewrite Hd, Hr. exact Hal.
    - apply Hne, Hd.
    - exists c'. split; assumption. }
  destruct (state cc).
  1, 2:
    destruct (path_blocked o);
      [eexists; split; [reflexivity|exact Hal]|];
    destruct (at_line (stop_line_detector cc) s) as [d fires];
    destruct fires; [|eexists; split; [reflexivity|exact Hal]];
    destruct (1 <? _)%nat; [|eexists; split; [reflexivity|exact Hal]];
    destruct (Hfin (set_stop_line_detector d cc) eq_refl eq_refl)
      as (c' & -> & Hc');
    cbn [bind]; eexists; split;
      [reflexivity|apply set_new_state_aligned, Hc'].
  - destruct (path_blocked o);
      [eexists; split; [reflexivity|exact Hal]|].
    cbn [hd_error bind].
    destruct (instruction.eqb (number front) instruction.stop).
    + destruct (Hfin cc eq_refl eq_refl) as (c' & -> & Hc'). cbn [bind].
      destruct (at_line (stop_line_detector c') s) as [d fires].
      eexists. split; [reflexivity|].
      apply set_new_state_aligned. exact Hc'.
    + cbn [bind]. destruct (at_line (stop_line_detector cc) s) as [d fires].
      eexists. split; [reflexivity|].
      apply set_new_state_aligned. exact Hal.
  - destruct (v =? 0); [|eexists; split; [reflexivity|exact Hal]].
    cbv zeta.
    destruct (finish_when_stopped (set_state (stop_reason cc) cc));
      [|eexists; split; [reflexivity|exact Hal]].
    destruct (Hfin (set_state (stop_reason cc) cc) eq_refl eq_refl)
      as (c' & -> & Hc').
    cbn [bind]. eexists. split; [reflexivity|exact Hc'].
  - destruct (negb (path_blocked o));
      eexists; (split; [reflexivity|]); [apply set_new_state_aligned|];
      exact Hal.
Qed.

(** *** Missions *)

Lemma set_drive_instructions_same (cc : CC) :
  set_drive_instructions (drive_instructions cc) cc = cc.
Proof. destruct cc; reflexivity. Qed.

Lemma save_path_entries : forall (insts : list instruction.InstructionNumber)
    (segms : list string) (cc : CC),
  (length insts <= length segms)%nat ->
  save_path insts segms cc
  = Some (set_drive_instructions
            (drive_instructions cc ++ path_entries insts segms) cc).
Proof.
  induction insts as [|inst insts IH]; intros segms cc Hlen.
  - cbn. rewrite app_nil_r, set_drive_instructions_same. reflexivity.
  - destruct segms as [|segm segms]; [cbn in Hlen; lia|].
    cbn [save_path]. rewrite IH by (cbn in Hlen; lia).
    unfold add_drive_instruction, path_entries. cbn.
    rewrite <- app_assoc. reflexivity.
Qed.

Lemma path_entries_numbers : forall (insts : list instruction.InstructionNumber)
    (segms : list string),
  (length insts <= length segms)%nat ->
  map number (path_entries insts segms) = insts.
Proof.
  unfold path_entries.
  induction insts as [|inst insts IH]; intros segms Hlen; [reflexivity|].
  destruct segms as [|segm segms]; [cbn in Hlen; lia|].
  cbn. rewrite IH by (cbn in Hlen; lia). reflexivity.
Qed.

Lemma path_entries_length (insts : list instruction.InstructionNumber)
    (segms : list string) :
  length insts = length segms ->
  length (path_entries insts segms) = length segms.
Proof.
  intros Hlen. unfold path_entries.
  rewrite length_map, length_combine. lia.
Qed.

(** What the loop over the legs leaves behind, however it ends. *)
Lemma mission_legs_spec :
  enough_segments ->
  forall (targets : list string) (start : string) (cc : CC),
  exists c,
    mission_legs start targets cc = Some c
    /\ drive_instructions (object_of c)
       = drive_instructions cc
         ++ mission_entries (path_finder cc) start targets
    /\ road_segments (object_of c)
       = road_segments cc ++ mission_segments (path_finder cc) start targets
    /\ finished_id_buffer (object_of c) = finished_id_buffer cc.
Proof.
  intros Henough.
  induction targets as [|target targets IH]; intros start cc.
  - exists (Returned cc). cbn. rewrite !app_nil_r. auto.
  - cbn [mission_legs mission_entries mission_segments]. cbv zeta.
    cbn [set_road_segments add_drive_instruction set_drive_instructions
         path_finder road_segments drive_instructions].
    destruct (solve (path_finder cc) start target) as [p|] eqn:Hsolve.
    + rewrite save_path_entries by (cbn; eapply Henough, Hsolve). cbn [bind].
      match goal with
      | |- context [mission_legs target targets ?x] =>
          destruct (IH target x) as (c & -> & Hd & Hs & Hf)
      end.
      exists c. split; [reflexivity|].
      rewrite Hd, Hs, Hf. cbn.
      repeat split; rewrite <- !app_assoc; reflexivity.
    + eexists. split; [reflexivity|]. cbn. auto.
Qed.

Lemma mission_lengths :
  lengths_match ->
  forall (targets : list string) (start : string) (p : P),
    length (mission_entries p start targets)
    = length (mission_segments p start targets).
Proof.
  intros Hmatch.
  induction targets as [|target targets IH]; intros start p; [reflexivity|].
  cbn [mission_entries mission_segments length]. f_equal.
  destruct (solve p start target) as [p'|] eqn:Hsolve; [|reflexivity].
  rewrite !length_app, IH, path_entries_length; [reflexivity|].
  eapply Hmatch, Hsolve.
Qed.

Lemma lengths_match_enough : lengths_match -> enough_segments.
Proof.
  intros Hmatch p p' a b Hsolve. rewrite (Hmatch p p' a b Hsolve). lia.
Qed.

(** C2. A mission [A; B; C] whose two legs the planner solves replaces the
    plan, whatever it held, by: a stop tagged [A], the instructions of leg
    [A] to [B] in order, a stop tagged [B], the instructions of leg [B] to
    [C] in order. The segment queue is replaced alike, and the completion
    buffer keeps its contents. *)
Theorem set_drive_missions_two_legs (A B C : string) (cc : CC) (p1 p2 : P) :
  solve (path_finder cc) A B = Some p1 ->
  solve p1 B C = Some p2 ->
  (length (get_drive_mission p1) <= length (get_road_segments p1))%nat ->
  (length (get_drive_mission p2) <= length (get_road_segments p2))%nat ->
  exists cc',
    set_drive_missions [A; B; C] cc = Some (Returned cc')
    /\ drive_instructions cc'
       = mk_drive_instruction instruction.stop A
         :: path_entries (get_drive_mission p1) (get_road_segments p1)
         ++ mk_drive_instruction instruction.stop B
         :: path_entries (get_drive_mission p2) (get_road_segments p2)
    /\ map number (drive_instructions cc')
       = instruction.stop :: get_drive_mission p1
         ++ instruction.stop :: get_drive_mission p2
    /\ road_segments cc'
       = A :: get_road_segments p1 ++ B :: get_road_segments p2
    /\ finished_id_buffer cc' = finished_id_buffer cc.
Proof.
  intros HAB HBC Hlen1 Hlen2.
  unfold set_drive_missions. cbn. rewrite HAB.
  rewrite save_path_entries by (cbn; exact Hlen1). cbn. rewrite HBC.
  rewrite save_path_entries by (cbn; exact Hlen2). cbn.
  eexists. split; [reflexivity|]. cbn.
  repeat split.
  - rewrite <- app_assoc. reflexivity.
  - rewrite !map_app. cbn [map number].
    rewrite !path_entries_numbers by assumption.
    rewrite <- app_assoc. reflexivity.
  - rewrite <- app_assoc. reflexivity.
Qed.

Lemma tick_aligned (o s v al ar ll lr code : Z) (cc cc' : CC) (c : control_t) :
  aligned cc ->
  tick o s v al ar ll lr code cc = Some (cc', c) ->
  aligned cc'.
Proof.
  intros Hal. unfold tick. cbv zeta. unfold DistanceFilter.filter.
  match goal with
  | |- context [update_state ?a ?b ?d ?x] =>
      destruct (update_state_aligned a b d x) as (cc1 & -> & Hal1);
        [exact Hal|]
  end.
  cbn [bind]. rewrite choose_regulation_mode_spec.
  destruct (calculate_angle al ar _) as [[cc2 a]|] eqn:Hangle; [|discriminate].
  apply calculate_angle_object in Hangle. cbn [bind].
  destruct (calculate_lateral_position ll lr cc2); [|discriminate].
  cbn [bind]. intros Heq. inversion Heq. subst. exact Hal1.
Qed.

(** C6. Segments never outnumber instructions. From an object where that
    holds it holds after adding an instruction, after any number of
    [finish_instruction] calls the plan allows, after [update_state] and
    after a tick. After [set_drive_missions] it holds whatever the object
    was, for a planner that returns as many segments as instructions. *)
Theorem aligned_preserved (cc : CC) :
  (aligned cc ->
   (forall (i : instruction.InstructionNumber) (name : string),
      aligned (add_drive_instruction i name cc))
   /\ (forall n : nat,
         (n <= length (drive_instructions cc))%nat ->
         exists cc', finish_many n cc = Some cc' /\ aligned cc')
   /\ (forall o s v : Z,
         exists cc', update_state o s v cc = Some cc' /\ aligned cc')
   /\ (forall (o s v al ar ll lr code : Z) (cc' : CC) (c : control_t),
         tick o s v al ar ll lr code cc = Some (cc', c) -> aligned cc'))
  /\ (lengths_match ->
      forall (start : string) (targets : list string),
      exists c,
        set_drive_missions (start :: targets) cc = Some c
        /\ aligned (object_of c)).
Proof.
  split.
  - intros Hal. repeat split.
    + intros i name. unfold aligned, add_drive_instruction in *. cbn.
      rewrite length_app. cbn. lia.
    + intros n Hn. apply finish_many_aligned; assumption.
    + intros o s v. apply update_state_aligned, Hal.
    + intros o s v al ar ll lr code cc' c. apply tick_aligned, Hal.
  - intros Hmatch start targets. unfold set_drive_missions. cbv zeta.
    destruct (mission_legs_spec (lengths_match_enough Hmatch) targets start
                (set_road_segments [] (set_drive_instructions [] cc)))
      as (c & -> & Hd & Hs & _).
    exists c. split; [reflexivity|].
    unfold aligned. rewrite Hd, Hs. cbn.
    rewrite (mission_lengths Hmatch). lia.
Qed.

Lemma path_entries_nth : forall (insts : list instruction.InstructionNumber)
    (segms : list string) (k : nat) (inst : instruction.InstructionNumber)
    (segm : string),
  nth_error insts k = Some inst ->
  nth_error segms k = Some segm ->
  nth_error (path_entries insts segms) k
  = Some (mk_drive_instruction inst segm).
Proof.
  unfold path_entries.
  induction insts as [|i insts IH]; intros segms k inst segm Hi Hs.
  - destruct k; discriminate.
  - destruct segms as [|g segms]; [destruct k; discriminate|].
    destruct k as [|k]; cbn in *.
    + congruence.
    + apply IH; assumption.
Qed.

(** C10. A mission fills the plan with, per leg, a stop tagged with the
    waypoint the leg starts at and then the planner's instructions, the
    [k]-th of them tagged with the [k]-th segment name the planner returned
    for that leg. Finishing the front instruction and polling then yields
    that tag: a segment name for a planner instruction, a waypoint name for
    a synthetic stop. *)
Theorem mission_ids_are_segment_names
    (start : string) (targets : list string) (cc : CC) :
  enough_segments ->
  exists c,
    set_drive_missions (start :: targets) cc = Some c
    /\ drive_instructions (object_of c)
       = mission_entries (path_finder cc) start targets
    /\ (forall (p : P) (k : nat) (inst : instruction.InstructionNumber)
               (segm : string),
          nth_error (get_drive_mission p) k = Some inst ->
          nth_error (get_road_segments p) k = Some segm ->
          nth_error
            (path_entries (get_drive_mission p) (get_road_segments p)) k
          = Some (mk_drive_instruction inst segm))
    /\ (forall (obj : CC) (front : drive_instruction_t)
               (rest : list drive_instruction_t),
          drive_instructions obj = front :: rest ->
          finished_id_buffer obj = [] ->
          exists obj',
            finish_instruction obj = Some obj'
            /\ get_finished_instruction_id obj'
               = (set_finished_id_buffer [] obj', id front)).
Proof.
  intros Henough. unfold set_drive_missions. cbv zeta.
  destruct (mission_legs_spec Henough targets start
              (set_road_segments [] (set_drive_instructions [] cc)))
    as (c & -> & Hd & _).
  exists c. split; [reflexivity|]. split; [exact Hd|]. split.
  - intros p k inst segm. apply path_entries_nth.
  - intros obj front rest Hfront Hbuffer.
    rewrite (finish_instruction_front obj front rest Hfront).
    eexists. split; [reflexivity|].
    unfold get_finished_instruction_id. cbn. rewrite Hbuffer. reflexivity.
Qed.

(** *** The state machine, beyond the stop line *)

Lemma update_state_defined (o s v : Z) (cc : CC) :
  exists cc', update_state o s v cc = Some cc'.
Proof.
  unfold update_state.
  destruct (drive_instructions cc) as [|front rest] eqn:E.
  { destruct (v >? 0); eexists; reflexivity. }
  assert (Hfin : forall c : CC,
            drive_instructions c = front :: rest ->
            exists c', finish_instruction c = Some c').
  { intros c Hc. rewrite (finish_instruction_front c front rest Hc).
    eexists. reflexivity. }
  destruct (state cc).
  1, 2:
    destruct (path_blocked o); [eexists; reflexivity|];
    destruct (at_line (stop_line_detector cc) s) as [d fires];
    destruct fires; [|eexists; reflexivity];
    destruct (1 <? _)%nat; [|eexists; reflexivity];
    destruct (Hfin (set_stop_line_detector d cc) E) as (c' & ->);
    eexists; reflexivity.
  - destruct (path_blocked o); [eexists; reflexivity|].
    cbn [hd_error bind].
    destruct (instruction.eqb (number front) instruction.stop).
    + destruct (Hfin cc E) as (c' & ->). cbn [bind].
      destruct (at_line (stop_line_detector c') s). eexists. reflexivity.
    + cbn [bind]. destruct (at_line (stop_line_detector cc) s).
      eexists. reflexivity.
  - destruct (v =? 0); [|eexists; reflexivity]. cbv zeta.
    destruct (finish_when_stopped _); [|eexists; reflexivity].
    destruct (Hfin (set_state (stop_reason cc) cc) E) as (c' & ->).
    eexists. reflexivity.
  - destruct (negb (path_blocked o)); eexists; reflexivity.
Qed.

(** Case analysis of a call of [update_state] that returned. *)
Ltac update_state_cases H :=
  unfold update_state, finish_instruction, set_new_state in H;
  repeat (cbn in H;
          match type of H with
          | context [match ?x with _ => _ end] => destruct x eqn:?
          | context [if ?x then _ else _] => destruct x eqn:?
          end);
  cbn in H; try discriminate; injection H as <-.

(** The plan after a call is the plan before, or its tail. *)
Lemma update_state_plan (o s v : Z) (cc cc' : CC) :
  update_state o s v cc = Some cc' ->
  drive_instructions cc' = drive_instructions cc
  \/ drive_instructions cc' = tl (drive_instructions cc).
Proof.
  intros Hupdate.
  update_state_cases Hupdate; cbn in *;
    first [ solve [left; congruence] | solve [right; congruence] ].
Qed.

(** A call of [update_state] always returns, and it finishes at most one
    instruction: either the plan, the segments and the completion buffer
    are as before, or the front instruction is gone from the plan, its id
    is the newest entry of the buffer, and the front segment, if there was
    one, is gone. *)
Theorem update_state_finishes_at_most_one (o s v : Z) (cc : CC) :
  exists cc',
    update_state o s v cc = Some cc'
    /\ ((drive_instructions cc' = drive_instructions cc
         /\ road_segments cc' = road_segments cc
         /\ finished_id_buffer cc' = finished_id_buffer cc)
        \/ (exists front,
              drive_instructions cc = front :: drive_instructions cc'
              /\ road_segments cc' = tl (road_segments cc)
              /\ finished_id_buffer cc'
                 = finished_id_buffer cc ++ [id front])).
Proof.
  destruct (update_state_defined o s v cc) as [cc' Hupdate].
  exists cc'. split; [exact Hupdate|].
  update_state_cases Hupdate; cbn in *;
    first [ solve [left; repeat split; (reflexivity || congruence)]
          | solve [right; eexists; repeat split;
                   (reflexivity || congruence)] ].
Qed.

(** What a tick that returned went through: the state update on the
    filtered distances, then the command from the updated object. *)
Lemma tick_inversion (o s v al ar ll lr code : Z) (cc cc' : CC)
    (c : control_t) :
  tick o s v al ar ll lr code cc = Some (cc', c) ->
  exists (f1 f2 : DistanceFilter.t) (s' : Z) (cc1 : CC),
    update_state (filtered_obstacle_distance o cc) s' v
      (set_stop_distance_filter f2 (set_obstacle_distance_filter f1 cc))
    = Some cc1
    /\ drive_instructions cc1 <> []
    /\ cc' = set_last_angle (angle c)
               (set_consecutive_0_status_codes
                  (count_step (consecutive_0_status_codes cc1) code) cc1)
    /\ speed_ref c = calculate_speed cc1.
Proof.
  unfold tick, filtered_obstacle_distance. cbv zeta.
  unfold DistanceFilter.filter. cbn [snd].
  match goal with
  | |- context [update_state ?a ?b ?d ?x] =>
      destruct (update_state a b d x) as [cc1|] eqn:Hupdate; [|discriminate]
  end.
  cbn [bind]. rewrite choose_regulation_mode_spec.
  destruct (calculate_angle al ar _) as [[cc2 a]|] eqn:Hangle; [|discriminate].
  pose proof (calculate_angle_object _ _ _ _ _ Hangle) as Hobj.
  cbn [bind].
  destruct (calculate_lateral_position ll lr cc2); [|discriminate].
  cbn [bind]. intros Heq. inversion Heq. subst.
  do 4 eexists. split; [exact Hupdate|]. cbn. repeat split.
  intros Hempty. rewrite calculate_angle_empty_plan in Hangle;
    [discriminate|exact Hempty].
Qed.

Lemma update_state_keeps_plan_nonempty (o s v : Z) (cc cc' : CC) :
  (2 <= length (drive_instructions cc))%nat
  \/ (drive_instructions cc <> []
      /\ (driving (state cc) = true \/ state cc = state.blocked)) ->
  update_state o s v cc = Some cc' ->
  drive_instructions cc' <> [].
Proof.
  intros [Hlong | [Hplan Hstate]] Hupdate.
  - destruct (update_state_plan o s v cc cc' Hupdate) as [-> | ->];
      destruct (drive_instructions cc) as [|a [|b l]];
      cbn in *; try lia; discriminate.
  - destruct (state cc) eqn:Estate; cbn in Hstate;
      try (destruct Hstate; discriminate).
    all: update_state_cases Hupdate; cbn in *; try congruence.
    all: match goal with
         | |- ?l <> [] => destruct l; cbn in *; discriminate
         end.
Qed.

Lemma calculate_angle_defined (l r : Z) (cc : CC) :
  drive_instructions cc <> [] ->
  exists a, calculate_angle l r cc = Some (set_last_angle a cc, a).
Proof.
  intros Hplan. unfold calculate_angle.
  destruct (drive_instructions cc); [contradiction|].
  cbn [hd_error bind]. eexists. reflexivity.
Qed.

Lemma calculate_lateral_position_defined (l r : Z) (cc : CC) :
  drive_instructions cc <> [] ->
  exists p, calculate_lateral_position l r cc = Some p.
Proof.
  intros Hplan. unfold calculate_lateral_position.
  destruct (drive_instructions cc) as [|front rest]; [contradiction|].
  cbn [hd_error bind]. destruct (number front); eexists; reflexivity.
Qed.

(** A tick returns a command whenever the plan holds two instructions or
    more, and whenever the plan is not empty and the state is [normal],
    [intersection] or [blocked]; the plan it leaves is not empty, and the
    speed of the command is the one of the state the tick ends in. *)
Theorem tick_returns (o s v al ar ll lr code : Z) (cc : CC) :
  (2 <= length (drive_instructions cc))%nat
  \/ (drive_instructions cc <> []
      /\ (driving (state cc) = true \/ state cc = state.blocked)) ->
  exists (cc' : CC) (c : control_t),
    tick o s v al ar ll lr code cc = Some (cc', c)
    /\ drive_instructions cc' <> []
    /\ speed_ref c = calculate_speed cc'.
Proof.
  intros Hplan. unfold tick. cbv zeta. unfold DistanceFilter.filter.
  match goal with
  | |- context [update_state ?a ?b ?d ?x] =>
      destruct (update_state_defined a b d x) as [cc1 Hupdate];
      rewrite Hupdate;
      pose proof (update_state_keeps_plan_nonempty a b d x cc1 Hplan Hupdate)
        as Hne
  end.
  cbn [bind]. rewrite choose_regulation_mode_spec.
  match goal with
  | |- context [calculate_angle al ar ?x] =>
      destruct (calculate_angle_defined al ar x Hne) as [a ->]
  end.
  cbn [bind].
  match goal with
  | |- context [calculate_lateral_position ll lr ?x] =>
      destruct (calculate_lateral_position_defined ll lr x Hne) as [p ->]
  end.
  cbn [bind]. do 2 eexists. split; [reflexivity|].
  split; [exact Hne|reflexivity].
Qed.

Lemma update_state_blocked_path (o s v : Z) (cc cc' : CC) :
  path_blocked o = true ->
  stop_reason_assigned cc ->
  update_state o s v cc = Some cc' ->
  driving (state cc') = false /\ stop_reason_assigned cc'.
Proof.
  unfold stop_reason_assigned. intros Hblocked Hreason Hupdate.
  unfold update_state in Hupdate. rewrite Hblocked in Hupdate.
  update_state_cases Hupdate; cbn in *;
    destruct Hreason as [Hr | Hr];
    repeat match goal with
           | E : state cc = _ |- _ => rewrite E
           | E : stop_reason cc = _ |- _ => rewrite E
           end; cbn; split; auto; congruence.
Qed.

(** A tick whose filtered obstacle distance counts as blocked commands speed
    0, whatever the state and the plan were, and ends in a state that is
    neither [normal] nor [intersection]. The stop reason is taken to hold one
    of the two values the code assigns to it, and does so afterwards. *)
Theorem tick_blocked_path_stops (o s v al ar ll lr code : Z) (cc cc' : CC)
    (c : control_t) :
  path_blocked (filtered_obstacle_distance o cc) = true ->
  stop_reason_assigned cc ->
  tick o s v al ar ll lr code cc = Some (cc', c) ->
  speed_ref c = 0
  /\ driving (state cc') = false
  /\ stop_reason_assigned cc'.
Proof.
  intros Hblocked Hreason Htick.
  destruct (tick_inversion _ _ _ _ _ _ _ _ _ _ _ Htick)
    as (f1 & f2 & s' & cc1 & Hupdate & _ & -> & ->).
  destruct (update_state_blocked_path _ s' v
              (set_stop_distance_filter f2 (set_obstacle_distance_filter f1 cc))
              cc1 Hblocked Hreason Hupdate)
    as [Hstate Hreason1].
  unfold calculate_speed, stop_reason_assigned in *. cbn.
  destruct (state cc1); cbn in Hstate; try discriminate; auto.
Qed.

(** [update_state] asks the stop-line detector only on a clear path in the
    states [normal], [intersection] and [stop_line]: on a blocked path, in
    the states [blocked] and [stopping] and with an empty plan the detector
    is left as it was. *)
Theorem update_state_leaves_detector (o s v : Z) (cc cc' : CC) :
  path_blocked o = true
  \/ state cc = state.blocked
  \/ state cc = state.stopping
  \/ drive_instructions cc = [] ->
  update_state o s v cc = Some cc' ->
  stop_line_detector cc' = stop_line_detector cc.
Proof.
  intros Hcase Hupdate. unfold update_state in Hupdate.
  destruct Hcase as [Hb | [Hs | [Hs | Hp]]];
    rewrite ?Hb, ?Hs, ?Hp in Hupdate;
    update_state_cases Hupdate; reflexivity.
Qed.

(** Driving on a clear path with the detector silent: the call changes
    nothing but the detector. *)
Theorem update_state_running (o s v : Z) (cc : CC) (d : D) :
  driving (state cc) = true ->
  drive_instructions cc <> [] ->
  path_blocked o = false ->
  at_line (stop_line_detector cc) s = (d, false) ->
  update_state o s v cc = Some (set_stop_line_detector d cc).
Proof.
  intros Hstate Hplan Hclear Hsilent. unfold update_state.
  destruct (drive_instructions cc); [contradiction|].
  destruct (state cc); try discriminate;
    rewrite Hclear, Hsilent; reflexivity.
Qed.

(** In [blocked] the machine waits: while the path is blocked the call
    changes nothing; once it is clear the state is the one of the front
    instruction ([normal] for forward, [intersection] for a turn, for a stop
    [stopping] when moving and [stop_line] otherwise), and the plan, the
    segments and the completion buffer are as before. *)
Theorem update_state_blocked_waits (o s v : Z) (cc : CC)
    (front : drive_instruction_t) (rest : list drive_instruction_t) :
  state cc = state.blocked ->
  drive_instructions cc = front :: rest ->
  (path_blocked o = true -> update_state o s v cc = Some cc)
  /\ (path_blocked o = false ->
      exists cc',
        update_state o s v cc = Some cc'
        /\ state cc' = state_for (number front) v
        /\ drive_instructions cc' = front :: rest
        /\ road_segments cc' = road_segments cc
        /\ finished_id_buffer cc' = finished_id_buffer cc).
Proof.
  intros Hstate Hplan. unfold update_state. rewrite Hplan, Hstate.
  split; intros ->; cbn [negb]; [reflexivity|].
  eexists. split; [reflexivity|].
  destruct (set_new_state_frame v cc) as (Hs & Hd & Hr & Hf & _).
  rewrite Hs, Hd, Hr, Hf, Hplan. repeat split.
Qed.

(** Standing at a stop line on a clear path: a stop instruction in front is
    finished at once (popped, its id buffered, the front segment dropped)
    and the state is the one of the instruction behind it, [stop_line] or
    [stopping] when there is none; any other front instruction stays and
    gives the state. On a blocked path the state becomes [blocked] and
    nothing else changes. *)
Theorem update_state_at_stop_line (o s v : Z) (cc : CC)
    (front : drive_instruction_t) (rest : list drive_instruction_t) :
  state cc = state.stop_line ->
  drive_instructions cc = front :: rest ->
  (path_blocked o = true ->
   update_state o s v cc = Some (set_state state.blocked cc))
  /\ (path_blocked o = false ->
      exists cc',
        update_state o s v cc = Some cc'
        /\ (number front = instruction.stop ->
            drive_instructions cc' = rest
            /\ road_segments cc' = tl (road_segments cc)
            /\ finished_id_buffer cc' = finished_id_buffer cc ++ [id front]
            /\ state cc'
               = state_for (match rest with
                            | [] => instruction.stop
                            | next :: _ => number next
                            end) v)
        /\ (number front <> instruction.stop ->
            drive_instructions cc' = front :: rest
            /\ road_segments cc' = road_segments cc
            /\ finished_id_buffer cc' = finished_id_buffer cc
            /\ state cc' = state_for (number front) v)).
Proof.
  intros Hstate Hplan. unfold update_state. rewrite Hplan, Hstate.
  split; intros ->; [reflexivity|].
  cbn [hd_error bind].
  destruct (instruction.eqb (number front) instruction.stop) eqn:Estop.
  - rewrite (finish_instruction_front cc front rest Hplan). cbn [bind].
    match goal with
    | |- context [at_line ?x s] => destruct (at_line x s) as [d fires]
    end.
    eexists. split; [reflexivity|].
    split; [intros _|intros Hne; destruct (number front); cbn in Estop;
                     congruence].
    match goal with
    | |- context [set_new_state v ?x] =>
        destruct (set_new_state_frame v x) as (Hs & Hd & Hr & Hf & _)
    end.
    rewrite Hs, Hd, Hr, Hf. cbn. repeat split.
  - cbn [bind]. destruct (at_line (stop_line_detector cc) s) as [d fires].
    eexists. split; [reflexivity|].
    split; [intros Hstop; rewrite Hstop in Estop; discriminate|intros _].
    match goal with
    | |- context [set_new_state v ?x] =>
        destruct (set_new_state_frame v x) as (Hs & Hd & Hr & Hf & _)
    end.
    rewrite Hs, Hd, Hr, Hf. cbn. rewrite Hplan. repeat split.
Qed.

(** An obstacle while driving: the machine goes to [stopping] for reason
    [blocked] without asking the detector and without touching the plan.
    While the vehicle still moves nothing changes; when its speed is 0 the
    state becomes [blocked], and with [finish_when_stopped] unset nothing is
    finished. *)
Theorem update_state_obstacle_while_driving (o s v : Z) (cc : CC) :
  driving (state cc) = true ->
  drive_instructions cc <> [] ->
  path_blocked o = true ->
  finish_when_stopped cc = false ->
  let braking := set_stop_reason state.blocked (set_state state.stopping cc) in
  update_state o s v cc = Some braking
  /\ (forall inputs : list (Z * Z * Z),
        Forall (fun i => snd i <> 0) inputs ->
        update_states inputs braking = Some braking)
  /\ (forall o' s' : Z,
        update_state o' s' 0 braking = Some (set_state state.blocked braking)).
Proof.
  intros Hstate Hplan Hblocked Hflag braking. repeat split.
  - unfold update_state.
    destruct (drive_instructions cc); [contradiction|].
    destruct (state cc); try discriminate; rewrite Hblocked; reflexivity.
  - intros inputs Hmoving.
    apply update_states_stopping_moving; [exact Hplan|reflexivity|exact Hmoving].
  - intros o' s'. unfold update_state. cbn.
    destruct (drive_instructions cc); [contradiction|].
    rewrite Hflag. reflexivity.
Qed.

(** *** Finishing and polling *)

Lemma finish_many_spec : forall (n : nat) (cc : CC),
  (n <= length (drive_instructions cc))%nat ->
  exists cc',
    finish_many n cc = Some cc'
    /\ drive_instructions cc' = skipn n (drive_instructions cc)
    /\ road_segments cc' = skipn n (road_segments cc)
    /\ finished_id_buffer cc'
       = finished_id_buffer cc ++ map id (firstn n (drive_instructions cc))
    /\ state cc' = state cc.
Proof.
  induction n as [|n IH]; intros cc Hn.
  - exists cc. cbn. rewrite app_nil_r. auto.
  - destruct (drive_instructions cc) as [|front rest] eqn:E;
      [cbn in Hn; lia|].
    cbn [finish_many]. rewrite (finish_instruction_front cc front rest E).
    cbn [bind].
    match goal with
    | |- context [finish_many n ?x] =>
        destruct (IH x) as (cc' & -> & Hd & Hr & Hf & Hs)
    end; [cbn in *; lia|].
    exists cc'. split; [reflexivity|].
    rewrite Hd, Hr, Hf, Hs. cbn.
    repeat split.
    + destruct (road_segments cc); [destruct n|]; reflexivity.
    + rewrite <- app_assoc. reflexivity.
Qed.

Lemma poll_many_spec : forall (ids : list string) (cc : CC),
  finished_id_buffer cc = ids ->
  poll_many (length ids) cc = (set_finished_id_buffer [] cc, ids).
Proof.
  induction ids as [|first ids IH]; intros cc Hbuffer.
  - cbn. rewrite <- Hbuffer. destruct cc; reflexivity.
  - cbn [length poll_many]. unfold get_finished_instruction_id.
    rewrite Hbuffer. rewrite IH by reflexivity. reflexivity.
Qed.

(** Completions are reported first in, first out: after [n] instructions
    are finished, polling as often as the buffer is long returns what the
    buffer held before, then the ids of those [n] instructions in plan
    order; the buffer is then empty and one more poll returns the empty
    string and changes nothing. *)
Theorem finish_then_poll (n : nat) (cc : CC) :
  (n <= length (drive_instructions cc))%nat ->
  exists cc1,
    finish_many n cc = Some cc1
    /\ drive_instructions cc1 = skipn n (drive_instructions cc)
    /\ poll_many (length (finished_id_buffer cc) + n) cc1
       = (set_finished_id_buffer [] cc1,
          finished_id_buffer cc ++ map id (firstn n (drive_instructions cc)))
    /\ finished_instruction (set_finished_id_buffer [] cc1) = false
    /\ get_finished_instruction_id (set_finished_id_buffer [] cc1)
       = (set_finished_id_buffer [] cc1, EmptyString).
Proof.
  intros Hn.
  destruct (finish_many_spec n cc Hn) as (cc1 & Hfinish & Hd & _ & Hf & _).
  exists cc1. split; [exact Hfinish|]. split; [exact Hd|].
  split; [|split; reflexivity].
  rewrite <- (poll_many_spec _ cc1 Hf). f_equal.
  rewrite length_app, length_map, length_firstn. lia.
Qed.

(** [add_drive_instruction] appends: the new instruction is finished after
    every instruction the plan held, and finishing them all empties the
    plan. *)
Theorem add_drive_instruction_is_last
    (i : instruction.InstructionNumber) (name : string) (cc : CC) :
  exists cc',
    finish_many (S (length (drive_instructions cc)))
      (add_drive_instruction i name cc) = Some cc'
    /\ drive_instructions cc' = []
    /\ finished_id_buffer cc'
       = finished_id_buffer cc ++ map id (drive_instructions cc) ++ [name].
Proof.
  destruct (finish_many_spec (S (length (drive_instructions cc)))
              (add_drive_instruction i name cc))
    as (cc' & Hfinish & Hd & _ & Hf & _).
  { unfold add_drive_instruction. cbn. rewrite length_app. cbn. lia. }
  exists cc'. split; [exact Hfinish|].
  unfold add_drive_instruction in Hd, Hf.
  cbn [drive_instructions finished_id_buffer set_drive_instructions]
    in Hd, Hf.
  assert (Hlen : S (length (drive_instructions cc))
                 = length (drive_instructions cc
                           ++ [mk_drive_instruction i name]))
    by (rewrite length_app; cbn; lia).
  rewrite Hlen in Hd, Hf. rewrite skipn_all in Hd. rewrite firstn_all in Hf.
  split; [exact Hd|]. rewrite Hf, map_app. reflexivity.
Qed.

(** *** The command lies between the readings *)

Lemma int_average_between (a b : Z) :
  int_range (a + b) ->
  Z.min a b <= int_div (int_add a b) 2 <= Z.max a b.
Proof.
  intros Hsum. rewrite int_average by exact Hsum.
  Z.to_euclidean_division_equations. lia.
Qed.

Lemma calculate_angle_between (l r a : Z) (cc cc' : CC)
    (front : drive_instruction_t) (rest : list drive_instruction_t) :
  drive_instructions cc = front :: rest ->
  int_range (l + r) ->
  calculate_angle l r cc = Some (cc', a) ->
  if instruction.eqb (number front) instruction.stop
  then a = 0
  else Z.min l r <= a <= Z.max l r.
Proof.
  intros Hplan Hsum. unfold calculate_angle. rewrite Hplan.
  cbn [hd_error bind]. intros Heq. inversion Heq as [[Hobj Ha]]. clear Heq Hobj.
  pose proof (int_average_between l r Hsum).
  destruct (number front); cbn [instruction.eqb];
    repeat match goal with
           | |- context [if ?b then _ else _] => destruct b
           end; cbn [andb]; lia.
Qed.

Lemma calculate_lateral_position_between (l r p : Z) (cc : CC)
    (front : drive_instruction_t) (rest : list drive_instruction_t) :
  drive_instructions cc = front :: rest ->
  int_range (l + r) ->
  calculate_lateral_position l r cc = Some p ->
  if instruction.eqb (number front) instruction.stop
  then p = 0
  else Z.min l r <= p <= Z.max l r.
Proof.
  intros Hplan Hsum. unfold calculate_lateral_position. rewrite Hplan.
  cbn [hd_error bind].
  pose proof (int_average_between l r Hsum).
  destruct (number front); cbn [instruction.eqb]; intros [= <-]; lia.
Qed.

Lemma tick_inversion_command (o s v al ar ll lr code : Z) (cc cc' : CC)
    (c : control_t) :
  tick o s v al ar ll lr code cc = Some (cc', c) ->
  exists cc2 : CC,
    drive_instructions cc2 = drive_instructions cc'
    /\ calculate_angle al ar cc2 = Some (cc', angle c)
    /\ calculate_lateral_position ll lr cc' = Some (lateral_position c).
Proof.
  unfold tick. cbv zeta. unfold DistanceFilter.filter.
  match goal with
  | |- context [update_state ?a ?b ?d ?x] =>
      destruct (update_state a b d x) as [cc1|]; [|discriminate]
  end.
  cbn [bind]. rewrite choose_regulation_mode_spec.
  destruct (calculate_angle al ar _) as [[cc2 a]|] eqn:Hangle; [|discriminate].
  pose proof (calculate_angle_object _ _ _ _ _ Hangle) as Hobj.
  cbn [bind].
  destruct (calculate_lateral_position ll lr cc2) as [p|] eqn:Hlateral;
    [|discriminate].
  cbn [bind]. intros Heq. inversion Heq. subst cc'. cbn.
  eexists. split; [|split; [exact Hangle|exact Hlateral]].
  rewrite Hobj. reflexivity.
Qed.

(** The command of a tick steers between the readings: with a stop
    instruction in front the angle and the lateral position are 0, otherwise
    each lies between its left and right reading, provided the sums of the
    readings fit an int. The angle is also what the object remembers as the
    last angle. *)
Theorem tick_command_between_readings
    (o s v al ar ll lr code : Z) (cc cc' : CC) (c : control_t) :
  int_range (al + ar) ->
  int_range (ll + lr) ->
  tick o s v al ar ll lr code cc = Some (cc', c) ->
  exists (front : drive_instruction_t) (rest : list drive_instruction_t),
    drive_instructions cc' = front :: rest
    /\ last_angle cc' = angle c
    /\ if instruction.eqb (number front) instruction.stop
       then angle c = 0 /\ lateral_position c = 0
       else Z.min al ar <= angle c <= Z.max al ar
            /\ Z.min ll lr <= lateral_position c <= Z.max ll lr.
Proof.
  intros Hangles Hlaterals Htick.
  destruct (tick_inversion_command _ _ _ _ _ _ _ _ _ _ _ Htick)
    as (cc2 & Hplan & Hangle & Hlateral).
  destruct (drive_instructions cc') as [|front rest] eqn:E.
  { rewrite calculate_lateral_position_empty_plan in Hlateral;
      [discriminate|exact E]. }
  exists front, rest. split; [reflexivity|].
  pose proof (calculate_angle_between al ar _ cc2 cc' front rest Hplan
                Hangles Hangle) as Ha.
  pose proof (calculate_lateral_position_between ll lr _ cc' front rest E
                Hlaterals Hlateral) as Hl.
  rewrite (calculate_angle_object _ _ _ _ _ Hangle). cbn.
  split; [reflexivity|].
  destruct (instruction.eqb (number front) instruction.stop); auto.
Qed.

(** *** Segments and instruction ids *)

Lemma update_state_queues (o s v : Z) (cc cc' : CC) :
  update_state o s v cc = Some cc' ->
  (drive_instructions cc' = drive_instructions cc
   /\ road_segments cc' = road_segments cc)
  \/ (drive_instructions cc' = tl (drive_instructions cc)
      /\ road_segments cc' = tl (road_segments cc)).
Proof.
  intros Hupdate.
  update_state_cases Hupdate; cbn in *;
    first [ solve [left; split; congruence]
          | solve [right; split; congruence] ].
Qed.

Lemma path_entries_ids (insts : list instruction.InstructionNumber) :
  forall segms : list string,
    length insts = length segms ->
    map id (path_entries insts segms) = segms.
Proof.
  unfold path_entries.
  induction insts as [|inst insts IH]; intros [|segm segms] Hlen;
    try discriminate; [reflexivity|].
  cbn. rewrite IH by (cbn in Hlen; lia). reflexivity.
Qed.

Lemma mission_entries_ids :
  lengths_match ->
  forall (targets : list string) (start : string) (p : P),
    map id (mission_entries p start targets) = mission_segments p start targets.
Proof.
  intros Hmatch.
  induction targets as [|target targets IH]; intros start p; [reflexivity|].
  cbn [mission_entries mission_segments map id]. f_equal.
  destruct (solve p start target) as [p'|] eqn:Hsolve; [|reflexivity].
  rewrite map_app, IH, path_entries_ids; [reflexivity|].
  eapply Hmatch, Hsolve.
Qed.

(** With a planner whose sequences match in length, a mission leaves every
    instruction of the plan tagged with the segment at the same place of
    the segment queue; the current road segment is then the start waypoint,
    or ["end"] for a mission of a single waypoint. *)
Theorem set_drive_missions_tagged
    (start : string) (targets : list string) (cc : CC) :
  lengths_match ->
  exists c,
    set_drive_missions (start :: targets) cc = Some c
    /\ tagged (object_of c)
    /\ get_current_road_segment (object_of c)
       = match targets with
         | [] => "end"%string
         | _ :: _ => start
         end.
Proof.
  intros Hmatch. unfold set_drive_missions. cbv zeta.
  destruct (mission_legs_spec (lengths_match_enough Hmatch) targets start
              (set_road_segments [] (set_drive_instructions [] cc)))
    as (c & -> & Hd & Hs & _).
  exists c. split; [reflexivity|].
  unfold tagged, get_current_road_segment. rewrite Hd, Hs. cbn.
  split; [apply mission_entries_ids, Hmatch|].
  destruct targets; reflexivity.
Qed.

(** On a tagged plan the current road segment is the id of the front
    instruction, ["end"] when the plan is empty, and [update_state] and the
    ticks keep the plan tagged. *)
Theorem tagged_current_road_segment (cc : CC) :
  tagged cc ->
  get_current_road_segment cc
  = match drive_instructions cc with
    | [] => "end"%string
    | front :: _ => id front
    end
  /\ (forall o s v : Z,
        exists cc', update_state o s v cc = Some cc' /\ tagged cc')
  /\ (forall (o s v al ar ll lr code : Z) (cc' : CC) (c : control_t),
        tick o s v al ar ll lr code cc = Some (cc', c) -> tagged cc').
Proof.
  unfold tagged, get_current_road_segment. intros Htag.
  assert (Hstep : forall (o s v : Z) (x x' : CC),
            map id (drive_instructions x) = road_segments x ->
            update_state o s v x = Some x' ->
            map id (drive_instructions x') = road_segments x').
  { intros o s v x x' Hx Hupdate.
    destruct (update_state_queues o s v x x' Hupdate) as [[-> ->] | [-> ->]];
      [exact Hx|].
    rewrite <- Hx. destruct (drive_instructions x); reflexivity. }
  repeat split.
  - rewrite <- Htag. destruct (drive_instructions cc); reflexivity.
  - intros o s v. destruct (update_state_defined o s v cc) as [cc' Hupdate].
    exists cc'. split; [exact Hupdate|]. exact (Hstep o s v cc cc' Htag Hupdate).
  - intros o s v al ar ll lr code cc' c Htick.
    destruct (tick_inversion _ _ _ _ _ _ _ _ _ _ _ Htick)
      as (f1 & f2 & s' & cc1 & Hupdate & _ & -> & _).
    cbn.
    exact (Hstep _ _ _
             (set_stop_distance_filter f2 (set_obstacle_distance_filter f1 cc))
             cc1 Htag Hupdate).
Qed.

(** *** What a mission leaves alone *)

Lemma save_path_frame : forall (insts : list instruction.InstructionNumber)
    (segms : list string) (cc cc' : CC),
  save_path insts segms cc = Some cc' ->
  same_machine cc cc'
  /\ path_finder cc' = path_finder cc
  /\ road_segments cc' = road_segments cc.
Proof.
  induction insts as [|inst insts IH]; intros segms cc cc' Hsave.
  - cbn in Hsave. injection Hsave as <-. unfold same_machine. intuition.
  - destruct segms as [|segm segms]; [discriminate|].
    cbn [save_path] in Hsave. apply IH in Hsave.
    unfold same_machine in *. cbn in Hsave. exact Hsave.
Qed.

Lemma mission_legs_frame : forall (targets : list string) (start : string)
    (cc : CC) (c : completion CC),
  mission_legs start targets cc = Some c ->
  same_machine cc (object_of c).
Proof.
  induction targets as [|target targets IH]; intros start cc c Hlegs.
  - injection Hlegs as <-. unfold same_machine. cbn. intuition.
  - cbn [mission_legs] in Hlegs. cbv zeta in Hlegs.
    destruct (solve _ start target) as [p|].
    + destruct (save_path _ _ _) as [cc1|] eqn:Hsave; [|discriminate].
      cbn [bind] in Hlegs. apply save_path_frame in Hsave.
      apply IH in Hlegs. unfold same_machine in *. cbn in *.
      intuition congruence.
    + injection Hlegs as <-. unfold same_machine. cbn. intuition.
Qed.

(** A mission replaces the plan and the segments and nothing else: the
    state, the stop reason, [finish_when_stopped], the completion buffer,
    the status counter, the last angle, the detector and the filters are
    what they were, whether the call returned or the planner threw. *)
Theorem set_drive_missions_keeps_machine
    (target_list : list string) (cc : CC) (c : completion CC) :
  set_drive_missions target_list cc = Some c ->
  same_machine cc (object_of c).
Proof.
  unfold set_drive_missions.
  destruct target_list as [|start targets]; [discriminate|].
  cbv zeta. intros Hlegs. apply mission_legs_frame in Hlegs.
  unfold same_machine in *. cbn in Hlegs. exact Hlegs.
Qed.

(** The first state update after a mission of two waypoints or more, on an
    object standing at a stop line with a clear path: the synthetic stop at
    the head of the plan is finished, so the start waypoint is the newest
    entry of the completion buffer, and the plan holds what follows that
    stop. *)
Theorem mission_start_reports_start_waypoint
    (o s v : Z) (start target : string) (targets : list string) (cc : CC) :
  enough_segments ->
  state cc = state.stop_line ->
  path_blocked o = false ->
  exists (c : completion CC) (cc' : CC),
    set_drive_missions (start :: target :: targets) cc = Some c
    /\ update_state o s v (object_of c) = Some cc'
    /\ finished_id_buffer cc' = finished_id_buffer cc ++ [start]
    /\ drive_instructions cc'
       = tl (mission_entries (path_finder cc) start (target :: targets)).
Proof.
  intros Henough Hstate Hclear.
  destruct (mission_legs_spec Henough (target :: targets) start
              (set_road_segments [] (set_drive_instructions [] cc)))
    as (c & Hlegs & Hd & Hs & Hf).
  pose proof (mission_legs_frame _ _ _ _ Hlegs) as (Hst & _).
  cbn in Hd, Hf, Hst. rewrite Hstate in Hst.
  exists c. unfold set_drive_missions. cbv zeta. rewrite Hlegs.
  cbn [mission_entries] in Hd. cbn [mission_entries tl].
  unfold update_state. rewrite Hd, Hst, Hclear.
  cbn [hd_error bind number instruction.eqb].
  rewrite (finish_instruction_front _ _ _ Hd). cbn [bind].
  match goal with
  | |- context [at_line ?x s] => destruct (at_line x s) as [d fires]
  end.
  eexists. split; [reflexivity|]. split; [reflexivity|].
  match goal with
  | |- context [set_new_state v ?x] =>
      destruct (set_new_state_frame v x) as (_ & Hd' & _ & Hf' & _)
  end.
  rewrite Hd', Hf'. cbn. rewrite Hf. split; reflexivity.
Qed.

(** The machine takes up or changes a driving state only as the front
    instruction says: after a call that ends in [normal] or [intersection]
    either the state is the one before the call, or it is the state of the
    instruction now in front. The stop reason is taken to hold one of the
    two values the code assigns to it. *)
Theorem update_state_drives_by_front (o s v : Z) (cc cc' : CC) :
  stop_reason_assigned cc ->
  update_state o s v cc = Some cc' ->
  driving (state cc') = true ->
  state cc' = state cc
  \/ exists (front : drive_instruction_t) (rest : list drive_instruction_t),
       drive_instructions cc' = front :: rest
       /\ state cc' = state_for (number front) v.
Proof.
  unfold stop_reason_assigned. intros Hreason Hupdate.
  update_state_cases Hupdate; cbn in *; intros Hdriving;
    try discriminate;
    try (destruct Hreason as [Hr | Hr]; rewrite Hr in Hdriving;
         discriminate);
    first [ solve [left; congruence]
          | right;
            match goal with
            | E : match ?l with [] => _ | _ :: _ => _ end = _ |- _ =>
                destruct l as [|front rest]; [discriminate|];
                exists front, rest; rewrite E; split; reflexivity
            | E : number ?f = _, P : drive_instructions cc = ?f :: ?r |- _ =>
                exists f, r; rewrite E; split; [exact P|reflexivity]
            end ].
Qed.

(** The end of [stopping]: at speed 0 the state becomes the stop reason and
    the flag is cleared; the front instruction is finished exactly when
    [finish_when_stopped] was set, whichever the stop reason is. At any
    other speed the call changes nothing. *)
Theorem update_state_stopped (o s v : Z) (cc : CC)
    (front : drive_instruction_t) (rest : list drive_instruction_t) :
  state cc = state.stopping ->
  drive_instructions cc = front :: rest ->
  (v <> 0 -> update_state o s v cc = Some cc)
  /\ (v = 0 ->
      exists cc',
        update_state o s v cc = Some cc'
        /\ state cc' = stop_reason cc
        /\ finish_when_stopped cc' = false
        /\ (finish_when_stopped cc = true ->
            drive_instructions cc' = rest
            /\ road_segments cc' = tl (road_segments cc)
            /\ finished_id_buffer cc' = finished_id_buffer cc ++ [id front])
        /\ (finish_when_stopped cc = false ->
            drive_instructions cc' = front :: rest
            /\ road_segments cc' = road_segments cc
            /\ finished_id_buffer cc' = finished_id_buffer cc)).
Proof.
  intros Hstate Hplan. unfold update_state. rewrite Hplan, Hstate. split.
  - intros Hv. destruct (Z.eqb_spec v 0); [contradiction|reflexivity].
  - intros ->. cbn [Z.eqb]. cbv zeta.
    cbn [finish_when_stopped set_state].
    destruct (finish_when_stopped cc) eqn:Hflag.
    + rewrite (finish_instruction_front _ front rest) by (cbn; exact Hplan).
      cbn [bind]. eexists. split; [reflexivity|]. cbn.
      repeat split; discriminate.
    + eexists. split; [reflexivity|]. cbn.
      repeat split; try discriminate; assumption.
Qed.

(** On a blocked path [update_state] never leaves the vehicle driving:
    whatever the state, the plan and the speed were, the state it ends in is
    neither [normal] nor [intersection], so [calculate_speed] gives 0. The
    stop reason is taken to hold one of the two values the code assigns to
    it, and does so afterwards. *)
Theorem update_state_blocked_path_stops (o s v : Z) (cc : CC) :
  path_blocked o = true ->
  stop_reason_assigned cc ->
  exists cc',
    update_state o s v cc = Some cc'
    /\ calculate_speed cc' = 0
    /\ (state cc' = state.stop_line \/ state cc' = state.stopping
        \/ state cc' = state.blocked)
    /\ stop_reason_assigned cc'.
Proof.
  intros Hblocked Hreason.
  destruct (update_state_defined o s v cc) as [cc' Hupdate].
  destruct (update_state_blocked_path o s v cc cc' Hblocked Hreason Hupdate)
    as [Hstate Hreason'].
  exists cc'. split; [exact Hupdate|].
  unfold calculate_speed.
  destruct (state cc'); cbn in Hstate; try discriminate; auto.
Qed.

End ControlCenterFacts.

(** * The properties on the small instance *)

Import Example.

Lemma example_lengths_match : lengths_match (P := planner).
Proof.
  intros p p' a b. cbn. destruct (String.eqb a b); [discriminate|].
  intros Hsolve. inversion Hsolve. reflexivity.
Qed.

Lemma example_enough_segments : enough_segments (P := planner).
Proof.
  intros p p' a b Hsolve.
  rewrite (example_lengths_match p p' a b Hsolve). apply le_n.
Qed.

(** A tick of the fresh object, whose plan is empty. *)
Lemma tick_empty_plan_undefined_witness :
  tick 0 (-1) 0 0 0 0 0 0 fresh = None.
Proof.
  apply (tick_empty_plan_undefined 0 (-1) 0 0 0 0 0 0 fresh). reflexivity.
Defined.

(** The mission [A; B; C] on the example track. *)
Lemma set_drive_missions_two_legs_witness :
  exists cc',
    set_drive_missions ["A"; "B"; "C"]%string fresh = Some (Returned cc')
    /\ drive_instructions cc'
       = [ mk_drive_instruction instruction.stop "A";
           mk_drive_instruction instruction.forward "A1";
           mk_drive_instruction instruction.left "B0";
           mk_drive_instruction instruction.stop "B";
           mk_drive_instruction instruction.forward "B1";
           mk_drive_instruction instruction.left "C0" ].
Proof.
  destruct (set_drive_missions_two_legs "A" "B" "C" fresh
              ([instruction.forward; instruction.left], ["A1"; "B0"]%string)
              ([instruction.forward; instruction.left], ["B1"; "C0"]%string))
    as (cc' & Hrun & Hplan & _);
    [reflexivity | reflexivity | cbn; lia | cbn; lia |].
  exists cc'. split; [exact Hrun | exact Hplan].
Defined.

(** With a threshold of 3 the third clean tick is nominal. *)
Lemma regulation_mode_hysteresis_witness :
  exists mode,
    nth_error (regulation_modes [0; 0; 0; 0; 5; 0; 0; 0] fresh) 2 = Some mode
    /\ mode = regulation_mode.auto_nominal.
Proof.
  destruct (regulation_mode_hysteresis [0; 0; 0; 0; 5; 0; 0; 0] fresh 2)
    as (mode & Hmode & Hiff & _); [reflexivity | reflexivity | cbn; lia |].
  exists mode. split; [exact Hmode|].
  apply Hiff. vm_compute. discriminate.
Defined.

(** A threshold of 0 and a status code of 1. *)
Lemma regulation_threshold_zero_nominal_witness :
  regulation
    (snd (choose_regulation_mode
            (mk_control 0 0 0 regulation_mode.auto_nominal) 1
            (new_ControlCenter 2 2 3 5 0%N : CC)))
  = regulation_mode.auto_nominal.
Proof.
  apply (regulation_threshold_zero_nominal
           (mk_control 0 0 0 regulation_mode.auto_nominal) 1
           (new_ControlCenter 2 2 3 5 0%N : CC)).
  reflexivity.
Defined.

(** With a threshold of 0 a tick with a non-zero status code is nominal:
    the mode is not [auto_critical] on every anomaly for every threshold. *)
Lemma regulation_threshold_zero_counterexample :
  ~ (forall (threshold : N) (status_code : Z),
       status_code <> 0 ->
       regulation_modes [status_code]
         (new_ControlCenter 2 2 3 5 threshold : CC)
       = [regulation_mode.auto_critical]).
Proof.
  intros Hclaim.
  specialize (Hclaim 0%N 1 ltac:(discriminate)).
  vm_compute in Hclaim. discriminate Hclaim.
Qed.

(** The detector fires with two instructions left, while driving at 30. *)
Lemma stop_line_reached_witness :
  exists cc1,
    update_state 100 5 30
      (with_plan [go instruction.forward; go instruction.left] state.normal)
    = Some (set_new_state 30 cc1)
    /\ drive_instructions cc1 = [go instruction.left]
    /\ finished_id_buffer cc1 = ["m"%string]
    /\ state (set_new_state 30 cc1) = state.intersection.
Proof.
  destruct (stop_line_reached 100 5 30
              (with_plan [go instruction.forward; go instruction.left]
                 state.normal)
              tt (go instruction.forward) [go instruction.left])
    as [Hmany _];
    [left; reflexivity | reflexivity | reflexivity | reflexivity |].
  destruct Hmany as (cc1 & _ & Hplan & Hbuffer & Hupdate & _ & _ & Hstate);
    [discriminate|].
  exists cc1. repeat split; assumption.
Defined.

(** The fresh object, still rolling at 30. *)
Lemma update_state_empty_plan_witness :
  exists cc',
    update_state 100 50 30 fresh = Some cc'
    /\ state cc' = state.stopping
    /\ stop_reason cc' = state.stop_line.
Proof.
  destruct (update_state_empty_plan 100 50 30 fresh)
    as (cc' & Hupdate & Hmoving & _); [reflexivity|].
  exists cc'. split; [exact Hupdate|]. apply Hmoving. lia.
Defined.

(** Two instructions finished, and a mission set. *)
Lemma aligned_preserved_witness :
  (exists cc',
     finish_many 2
       (with_plan [go instruction.forward; go instruction.left] state.normal)
     = Some cc' /\ aligned cc')
  /\ (exists c,
        set_drive_missions ["A"; "B"]%string fresh = Some c
        /\ aligned (object_of c)).
Proof.
  split.
  - destruct (aligned_preserved
                (with_plan [go instruction.forward; go instruction.left]
                   state.normal)) as [Hkept _].
    destruct Hkept as (_ & Hfinish & _); [unfold aligned; cbn; lia|].
    apply (Hfinish 2%nat). cbn. lia.
  - destruct (aligned_preserved fresh) as [_ Hmission].
    apply (Hmission example_lengths_match "A"%string ["B"%string]).
Defined.



(** One leg on the example track. *)
Lemma mission_ids_are_segment_names_witness :
  exists c,
    set_drive_missions ["A"; "B"]%string fresh = Some c
    /\ drive_instructions (object_of c)
       = [ mk_drive_instruction instruction.stop "A";
           mk_drive_instruction instruction.forward "A1";
           mk_drive_instruction instruction.left "B0" ].
Proof.
  destruct (mission_ids_are_segment_names "A" ["B"%string] fresh
              example_enough_segments) as (c & Hrun & Hplan & _).
  exists c. split; [exact Hrun | exact Hplan].
Defined.

(** A tick on a plan that is not empty returns a command: the stop in front
    is finished and the left turn behind it is taken at intersection
    speed. *)
Example tick_returns_command :
  option_map snd
    (tick 0 5 0 1 2 3 4 0
       (with_plan [go instruction.stop; go instruction.left] state.stop_line))
  = Some (mk_control 1 3 100 regulation_mode.auto_critical).
Proof. reflexivity. Qed.

(** The end of a mission: the tick that finishes the last instruction
    empties the plan and then reads its front. *)
Example tick_last_stop_undefined :
  tick 0 5 0 0 0 0 0 0 (with_plan [go instruction.stop] state.stop_line)
  = None.
Proof. reflexivity. Qed.

(** * Further properties on the small instance *)

Lemma tick_returns_witness :
  exists (cc' : CC) (c : control_t),
    tick 0 50 30 1 3 2 4 0 (with_plan straight_then_left state.normal)
    = Some (cc', c)
    /\ speed_ref c = calculate_speed cc'.
Proof.
  destruct (tick_returns 0 50 30 1 3 2 4 0
              (with_plan straight_then_left state.normal))
    as (cc' & c & Htick & _ & Hspeed); [left; cbn; lia|].
  exists cc', c. split; assumption.
Defined.

Lemma tick_blocked_path_stops_witness :
  exists (cc' : CC) (c : control_t),
    tick 5 50 30 0 0 0 0 0 (alert_with_plan straight_then_left state.normal)
    = Some (cc', c)
    /\ speed_ref c = 0.
Proof.
  destruct (tick 5 50 30 0 0 0 0 0
              (alert_with_plan straight_then_left state.normal))
    as [[cc' c]|] eqn:Htick; [|vm_compute in Htick; discriminate].
  exists cc', c. split; [reflexivity|].
  apply (tick_blocked_path_stops 5 50 30 0 0 0 0 0
           (alert_with_plan straight_then_left state.normal) cc' c);
    [reflexivity | left; reflexivity | exact Htick].
Defined.

Lemma update_state_leaves_detector_witness :
  exists cc',
    update_state 5 5 30 (with_plan straight_then_left state.normal) = Some cc'
    /\ stop_line_detector cc'
       = stop_line_detector (with_plan straight_then_left state.normal).
Proof.
  destruct (update_state 5 5 30 (with_plan straight_then_left state.normal))
    as [cc'|] eqn:Hupdate; [|vm_compute in Hupdate; discriminate].
  exists cc'. split; [reflexivity|].
  apply (update_state_leaves_detector 5 5 30 _ cc'); [|exact Hupdate].
  left. reflexivity.
Defined.

Lemma update_state_running_witness :
  update_state 100 50 30 (with_plan straight_then_left state.normal)
  = Some (set_stop_line_detector tt
            (with_plan straight_then_left state.normal)).
Proof.
  apply (update_state_running 100 50 30
           (with_plan straight_then_left state.normal) tt);
    [reflexivity | discriminate | reflexivity | reflexivity].
Defined.

Lemma update_state_blocked_waits_witness :
  update_state 5 50 0 (with_plan straight_then_left state.blocked)
  = Some (with_plan straight_then_left state.blocked)
  /\ exists cc',
       update_state 100 50 0 (with_plan straight_then_left state.blocked)
       = Some cc'
       /\ state cc' = state.normal.
Proof.
  split.
  - destruct (update_state_blocked_waits 5 50 0
                (with_plan straight_then_left state.blocked)
                (mk_drive_instruction instruction.forward "a")
                [mk_drive_instruction instruction.left "b"])
      as [Hwait _]; [reflexivity | reflexivity |].
    apply Hwait. reflexivity.
  - destruct (update_state_blocked_waits 100 50 0
                (with_plan straight_then_left state.blocked)
                (mk_drive_instruction instruction.forward "a")
                [mk_drive_instruction instruction.left "b"])
      as [_ Hgo]; [reflexivity | reflexivity |].
    destruct Hgo as (cc' & Hupdate & Hstate & _); [reflexivity|].
    exists cc'. split; [exact Hupdate | exact Hstate].
Defined.

Lemma update_state_at_stop_line_witness :
  exists cc',
    update_state 100 50 0
      (with_plan [go instruction.stop; go instruction.left] state.stop_line)
    = Some cc'
    /\ drive_instructions cc' = [go instruction.left]
    /\ state cc' = state.intersection.
Proof.
  destruct (update_state_at_stop_line 100 50 0
              (with_plan [go instruction.stop; go instruction.left]
                 state.stop_line)
              (go instruction.stop) [go instruction.left])
    as [_ Hclear]; [reflexivity | reflexivity |].
  destruct Hclear as (cc' & Hupdate & Hstop & _); [reflexivity|].
  destruct Hstop as (Hplan & _ & _ & Hstate); [reflexivity|].
  exists cc'. repeat split; assumption.
Defined.

Lemma update_state_obstacle_while_driving_witness :
  update_state 5 50 30 (with_plan straight_then_left state.normal)
  = Some (set_stop_reason state.blocked
            (set_state state.stopping
               (with_plan straight_then_left state.normal)))
  /\ update_state 5 50 0
       (set_stop_reason state.blocked
          (set_state state.stopping
             (with_plan straight_then_left state.normal)))
     = Some (set_state state.blocked
               (set_stop_reason state.blocked
                  (set_state state.stopping
                     (with_plan straight_then_left state.normal)))).
Proof.
  destruct (update_state_obstacle_while_driving 5 50 30
              (with_plan straight_then_left state.normal))
    as (Hbrake & _ & Hstopped);
    [reflexivity | discriminate | reflexivity | reflexivity |].
  split; [exact Hbrake | apply Hstopped].
Defined.

Lemma finish_then_poll_witness :
  exists cc1,
    finish_many 2 (with_plan straight_then_left state.normal) = Some cc1
    /\ poll_many 2 cc1 = (set_finished_id_buffer [] cc1, ["a"; "b"]%string).
Proof.
  destruct (finish_then_poll 2 (with_plan straight_then_left state.normal))
    as (cc1 & Hfinish & _ & Hpoll & _); [cbn; lia|].
  exists cc1. split; [exact Hfinish | exact Hpoll].
Defined.

Lemma tick_command_between_readings_witness :
  exists (cc' : CC) (c : control_t),
    tick 0 50 30 10 20 2 4 0 (with_plan straight_then_left state.normal)
    = Some (cc', c)
    /\ 10 <= angle c <= 20
    /\ 2 <= lateral_position c <= 4.
Proof.
  destruct (tick 0 50 30 10 20 2 4 0
              (with_plan straight_then_left state.normal))
    as [[cc' c]|] eqn:Htick; [|vm_compute in Htick; discriminate].
  exists cc', c. split; [reflexivity|].
  destruct (tick_command_between_readings 0 50 30 10 20 2 4 0
              (with_plan straight_then_left state.normal) cc' c)
    as (front & rest & Hplan & _ & Hbounds);
    [unfold int_range, INT_MIN, INT_MAX; lia
    |unfold int_range, INT_MIN, INT_MAX; lia
    |exact Htick|].
  assert (Hfront : number front = instruction.forward).
  { vm_compute in Htick. injection Htick as <- _. cbn in Hplan.
    injection Hplan as <- _. reflexivity. }
  rewrite Hfront in Hbounds. cbn in Hbounds. exact Hbounds.
Defined.

Lemma set_drive_missions_tagged_witness :
  exists c,
    set_drive_missions ["A"; "B"]%string fresh = Some c
    /\ tagged (object_of c)
    /\ get_current_road_segment (object_of c) = "A"%string.
Proof.
  apply (set_drive_missions_tagged "A" ["B"%string] fresh
           example_lengths_match).
Defined.

Lemma tagged_current_road_segment_witness :
  get_current_road_segment
    (set_road_segments ["a"; "b"]%string
       (with_plan straight_then_left state.normal))
  = "a"%string.
Proof.
  destruct (tagged_current_road_segment
              (set_road_segments ["a"; "b"]%string
                 (with_plan straight_then_left state.normal)))
    as (Hsegment & _); [reflexivity|].
  exact Hsegment.
Defined.

Lemma set_drive_missions_keeps_machine_witness :
  exists c,
    set_drive_missions ["A"; "B"]%string
      (with_plan straight_then_left state.normal) = Some c
    /\ state (object_of c) = state.normal.
Proof.
  destruct (set_drive_missions ["A"; "B"]%string
              (with_plan straight_then_left state.normal))
    as [c|] eqn:Hmission; [|vm_compute in Hmission; discriminate].
  exists c. split; [reflexivity|].
  destruct (set_drive_missions_keeps_machine ["A"; "B"]%string
              (with_plan straight_then_left state.normal) c Hmission)
    as (Hstate & _).
  exact Hstate.
Defined.

Lemma mission_start_reports_start_waypoint_witness :
  exists (c : completion CC) (cc' : CC),
    set_drive_missions ["A"; "B"]%string fresh = Some c
    /\ update_state 100 50 0 (object_of c) = Some cc'
    /\ finished_id_buffer cc' = ["A"%string].
Proof.
  destruct (mission_start_reports_start_waypoint 100 50 0 "A" "B" [] fresh
              example_enough_segments)
    as (c & cc' & Hmission & Hupdate & Hbuffer & _);
    [reflexivity | reflexivity |].
  exists c, cc'. repeat split; assumption.
Defined.

Lemma update_state_drives_by_front_witness :
  exists cc',
    update_state 100 50 0 (with_plan [go instruction.left] state.stop_line)
    = Some cc'
    /\ state cc' = state.intersection
    /\ exists (front : drive_instruction_t) (rest : list drive_instruction_t),
         drive_instructions cc' = front :: rest
         /\ state cc' = state_for (number front) 0.
Proof.
  destruct (update_state 100 50 0
              (with_plan [go instruction.left] state.stop_line))
    as [cc'|] eqn:Hupdate; [|vm_compute in Hupdate; discriminate].
  exists cc'. split; [reflexivity|].
  assert (Hstate : state cc' = state.intersection).
  { vm_compute in Hupdate. injection Hupdate as <-. reflexivity. }
  split; [exact Hstate|].
  destruct (update_state_drives_by_front 100 50 0
              (with_plan [go instruction.left] state.stop_line) cc')
    as [Hsame | Hfront];
    [left; reflexivity | exact Hupdate | rewrite Hstate; reflexivity | |].
  - rewrite Hstate in Hsame. discriminate Hsame.
  - exact Hfront.
Defined.

Lemma tick_regulation_witness :
  exists (cc' : CC) (c : control_t),
    tick 0 50 30 1 3 2 4 0 (with_plan straight_then_left state.normal)
    = Some (cc', c)
    /\ consecutive_0_status_codes cc' = 1%N
    /\ regulation c = regulation_mode.auto_critical.
Proof.
  destruct (tick 0 50 30 1 3 2 4 0
              (with_plan straight_then_left state.normal))
    as [[cc' c]|] eqn:Htick; [|vm_compute in Htick; discriminate].
  exists cc', c. split; [reflexivity|].
  destruct (tick_regulation 0 50 30 1 3 2 4 0
              (with_plan straight_then_left state.normal) cc' c Htick)
    as (Hcount & _ & Hmode).
  split; [exact Hcount | exact Hmode].
Defined.

Lemma update_state_stopped_witness :
  exists cc',
    update_state 5 50 0
      (set_finish_when_stopped true
         (set_stop_reason state.blocked
            (with_plan straight_then_left state.stopping)))
    = Some cc'
    /\ state cc' = state.blocked
    /\ drive_instructions cc' = [mk_drive_instruction instruction.left "b"]
    /\ finished_id_buffer cc' = ["a"%string].
Proof.
  destruct (update_state_stopped 5 50 0
              (set_finish_when_stopped true
                 (set_stop_reason state.blocked
                    (with_plan straight_then_left state.stopping)))
              (mk_drive_instruction instruction.forward "a")
              [mk_drive_instruction instruction.left "b"])
    as [_ Hstopped]; [reflexivity | reflexivity |].
  destruct Hstopped as (cc' & Hupdate & Hstate & _ & Harmed & _);
    [reflexivity|].
  destruct Harmed as (Hplan & _ & Hbuffer); [reflexivity|].
  exists cc'. repeat split; assumption.
Defined.

Lemma update_state_blocked_path_stops_witness :
  exists cc',
    update_state 5 50 30 (with_plan straight_then_left state.intersection)
    = Some cc'
    /\ calculate_speed cc' = 0.
Proof.
  destruct (update_state_blocked_path_stops 5 50 30
              (with_plan straight_then_left state.intersection))
    as (cc' & Hupdate & Hspeed & _); [reflexivity | left; reflexivity |].
  exists cc'. split; [exact Hupdate | exact Hspeed].
Defined.
